(** * ModelTrainer: parameter masking, gradient oracle, minimum bracketing
      and Brent-style line minimisation

    A shallow embedding of [gptk/libgptk/optimisation/ModelTrainer.cpp].

    Conventions of the embedding.
    - A C++ [double] is an exact rational ([Q]): [+], [-], [*] and [/] by a
      non-zero divisor are exact; rounding and overflow are not represented.
      The division that can meet an exact zero under the constructor's
      options (the parabolic step of [bracketMinimum], on collinear
      points) has its IEEE-754 result, of the type [xdouble] below;
      elsewhere [x / 0] is [0], as in [Q] (a zero [epsilon]).
    - An IT++ [vec] is a [list Q], a mask is a [list bool].  An indexed read
      or write outside the vector, a sum of vectors of different sizes and a
      failed [assert] stop the call: outcome [Fault].
    - The trainer is a record of its fields; every member function is a
      function from the trainer to an outcome and the next trainer.
    - The [while] loops of [bracketMinimum] have no bound in the source;
      they take a fuel argument and the outcome [NoFuel] says that the loop
      was still running when the fuel ran out.
    - The two evaluation counters are integers without a bound; their
      declaration is in ModelTrainer.h.
    - Console output is not part of the state, except the rows of the
      gradient-check table, which [checkGradient] returns. *)

From Stdlib Require Import QArith Qabs Qround Lqa ZArith Lia.
From stdpp Require Import base list.

(** ** Numbers *)

Module Num.

Definition ltb (x y : Q) : bool := negb (Qle_bool y x).
Definition leb (x y : Q) : bool := Qle_bool x y.
Definition eqb (x y : Q) : bool := Qeq_bool x y.

(** IT++ [sign]: zero at zero. *)
Definition sign (x : Q) : Q :=
  if eqb x 0 then 0 else if ltb x 0 then -1 else 1.

Definition abs (x : Q) : Q := Qabs x.

Definition max (x y : Q) : Q := if ltb x y then y else x.

Lemma ltb_spec x y : reflect (x < y)%Q (ltb x y).
Proof.
  unfold ltb. destruct (Qle_bool y x) eqn:E; simpl; constructor.
  - apply Qle_bool_iff in E. lra.
  - assert (~ (y <= x)%Q) as N by (rewrite <- Qle_bool_iff; congruence). lra.
Qed.

Lemma leb_spec x y : reflect (x <= y)%Q (leb x y).
Proof.
  unfold leb. destruct (Qle_bool x y) eqn:E; constructor.
  - now apply Qle_bool_iff.
  - rewrite <- Qle_bool_iff. congruence.
Qed.


Lemma ltb_true x y : ltb x y = true <-> (x < y)%Q.
Proof. destruct (ltb_spec x y); split; intros; try done; lra. Qed.

Lemma ltb_false x y : ltb x y = false <-> (y <= x)%Q.
Proof. destruct (ltb_spec x y); split; intros; try done; lra. Qed.

Lemma leb_true x y : leb x y = true <-> (x <= y)%Q.
Proof. destruct (leb_spec x y); split; intros; try done; lra. Qed.

Lemma leb_false x y : leb x y = false <-> (y < x)%Q.
Proof. destruct (leb_spec x y); split; intros; try done; lra. Qed.

(** The result of a [double] expression that may be infinite or undefined. *)
Inductive xdouble : Type :=
  | Finite (q : Q)
  | PlusInf
  | MinusInf
  | NotANumber.

(** IEEE-754 [n / d]: a zero divisor (here always [+0.0]) gives an infinity
    of the sign of [n], and [0.0 / 0.0] is not a number. *)
Definition xdiv (n d : Q) : xdouble :=
  if eqb d 0 then
    if ltb 0 n then PlusInf else if ltb n 0 then MinusInf else NotANumber
  else Finite (n / d).

Definition xopp (x : xdouble) : xdouble :=
  match x with
  | Finite q => Finite (- q)
  | PlusInf => MinusInf
  | MinusInf => PlusInf
  | NotANumber => NotANumber
  end.

(** [x + y] with [y] finite. *)
Definition xplus (x : xdouble) (y : Q) : xdouble :=
  match x with
  | Finite q => Finite (q + y)
  | other => other
  end.

(** [y - x] and [x - y] with [y] finite. *)
Definition xrsub (y : Q) (x : xdouble) : xdouble := xplus (xopp x) y.
Definition xsub (x : xdouble) (y : Q) : xdouble := xplus x (- y).

Definition xmul (x y : xdouble) : xdouble :=
  match x, y with
  | Finite p, Finite q => Finite (p * q)
  | NotANumber, _ | _, NotANumber => NotANumber
  | Finite p, PlusInf | PlusInf, Finite p =>
      if ltb 0 p then PlusInf else if ltb p 0 then MinusInf else NotANumber
  | Finite p, MinusInf | MinusInf, Finite p =>
      if ltb 0 p then MinusInf else if ltb p 0 then PlusInf else NotANumber
  | PlusInf, PlusInf | MinusInf, MinusInf => PlusInf
  | PlusInf, MinusInf | MinusInf, PlusInf => MinusInf
  end.

(** [x > 0.0] and [x >= 0.0]: false on a value that is not a number. *)
Definition xpos (x : xdouble) : bool :=
  match x with
  | Finite q => ltb 0 q
  | PlusInf => true
  | MinusInf | NotANumber => false
  end.

Definition xnonneg (x : xdouble) : bool :=
  match x with
  | Finite q => leb 0 q
  | PlusInf => true
  | MinusInf | NotANumber => false
  end.

(** The value of a finite [double]; the callers read it only where a test
    has excluded the infinities and the undefined value. *)
Definition xvalue (x : xdouble) : Q :=
  match x with
  | Finite q => q
  | PlusInf | MinusInf | NotANumber => 0
  end.

(** A point strictly between two finite points is finite: the test
    [(p - u) * (u - q) > 0.0] fails on the infinities and on the undefined
    value. *)
Lemma between_finite (p q : Q) (u : xdouble) :
  xpos (xmul (xrsub p u) (xsub u q)) = true -> u = Finite (xvalue u).
Proof. destruct u; simpl; congruence. Qed.

End Num.

(** ** Vectors *)

Abbreviation vec := (list Q).

Definition vec_scale (lambda : Q) (v : vec) : vec := map (Qmult lambda) v.

(** [u + v]; IT++ requires equal sizes. *)
Definition vec_add (u v : vec) : option vec :=
  if decide (length u = length v) then Some (zip_with Qplus u v) else None.

(** ** The model interface *)

(** The abstract class [Optimisable]: the four member functions the trainer
    calls on its model. *)
Class Optimisable (M : Type) : Type := {
  objective : M -> Q;
  gradient : M -> vec;
  getParametersVector : M -> vec;
  setParametersVector : vec -> M -> M
}.

(** A model whose parameter vector is a plain stored value: what is set is
    what is read back, and nothing else is remembered of earlier vectors. *)
Class StoredParameters (M : Type) `{Optimisable M} : Prop := {
  get_set : forall (v : vec) (m : M),
    getParametersVector (setParametersVector v m) = v;
  set_get : forall m : M,
    setParametersVector (getParametersVector m) m = m;
  set_set : forall (v w : vec) (m : M),
    setParametersVector v (setParametersVector w m) = setParametersVector v m
}.

(** The simplest model: the state is the parameter vector itself. *)
Definition vecModel (obj : vec -> Q) (grad : vec -> vec) : Optimisable vec :=
  {| objective := obj;
     gradient := grad;
     getParametersVector := fun p => p;
     setParametersVector := fun v _ => v |}.

(** ** Constants of ModelTrainer.h *)

(** The macros [PHI], [CPHI], [TOL] and [TINY] are defined in
    ModelTrainer.h; the functions below take them as parameters. *)
Class Constants : Type := {
  PHI : Q;
  CPHI : Q;
  TOL : Q;
  TINY : Q
}.

(** Modelled from the spec: the values of the macros of ModelTrainer.h,
    which is not part of the sources at hand.  The spec names them (the
    golden ratio, its complement for step scaling, a tolerance factor and a
    small floor against division by near-zero); the numbers are those of
    the Netlab routines the source says it follows. *)
Definition netlab : Constants :=
  {| PHI := 16180339 # 10000000;
     CPHI := 1 - 1 / (16180339 # 10000000);
     TOL := 1 # 67108864;
     TINY := 1 # 10000000000 |}.

(** ** The trainer *)

Record ModelTrainer (M : Type) : Type := mkModelTrainer {
  model : M;
  display : bool;
  errorTolerance : Q;
  parameterTolerance : Q;
  gradientCheck : bool;
  analyticGradients : bool;
  functionEvaluations : Z;
  gradientEvaluations : Z;
  functionValue : Q;
  lineMinimiserIterations : Z;
  lineMinimiserParameterTolerance : Q;
  maskSet : bool;
  optimisationMask : list bool;
  epsilon : Q
}.

Arguments mkModelTrainer {M}.
Arguments model {M}.
Arguments display {M}.
Arguments errorTolerance {M}.
Arguments parameterTolerance {M}.
Arguments gradientCheck {M}.
Arguments analyticGradients {M}.
Arguments functionEvaluations {M}.
Arguments gradientEvaluations {M}.
Arguments functionValue {M}.
Arguments lineMinimiserIterations {M}.
Arguments lineMinimiserParameterTolerance {M}.
Arguments maskSet {M}.
Arguments optimisationMask {M}.
Arguments epsilon {M}.

(** The constructor [ModelTrainer::ModelTrainer(Optimisable& m)]. *)
Definition newModelTrainer {M} (m : M) : ModelTrainer M :=
  {| model := m;
     display := true;
     errorTolerance := 1 # 1000000;
     parameterTolerance := 1 # 10000;
     gradientCheck := true;
     analyticGradients := true;
     functionEvaluations := 0;
     gradientEvaluations := 0;
     functionValue := 0;
     lineMinimiserIterations := 10;
     lineMinimiserParameterTolerance := 1 # 10000;
     maskSet := false;
     optimisationMask := [];
     epsilon := 1 # 1000000 |}.

(** Field updates. *)
Definition with_model {M} (m : M) (t : ModelTrainer M) : ModelTrainer M :=
  mkModelTrainer m (display t) (errorTolerance t) (parameterTolerance t)
    (gradientCheck t) (analyticGradients t) (functionEvaluations t)
    (gradientEvaluations t) (functionValue t) (lineMinimiserIterations t)
    (lineMinimiserParameterTolerance t) (maskSet t) (optimisationMask t)
    (epsilon t).

Definition with_functionEvaluations {M} (n : Z) (t : ModelTrainer M)
  : ModelTrainer M :=
  mkModelTrainer (model t) (display t) (errorTolerance t)
    (parameterTolerance t) (gradientCheck t) (analyticGradients t) n
    (gradientEvaluations t) (functionValue t) (lineMinimiserIterations t)
    (lineMinimiserParameterTolerance t) (maskSet t) (optimisationMask t)
    (epsilon t).

Definition with_gradientEvaluations {M} (n : Z) (t : ModelTrainer M)
  : ModelTrainer M :=
  mkModelTrainer (model t) (display t) (errorTolerance t)
    (parameterTolerance t) (gradientCheck t) (analyticGradients t)
    (functionEvaluations t) n (functionValue t) (lineMinimiserIterations t)
    (lineMinimiserParameterTolerance t) (maskSet t) (optimisationMask t)
    (epsilon t).

Definition with_functionValue {M} (v : Q) (t : ModelTrainer M)
  : ModelTrainer M :=
  mkModelTrainer (model t) (display t) (errorTolerance t)
    (parameterTolerance t) (gradientCheck t) (analyticGradients t)
    (functionEvaluations t) (gradientEvaluations t) v
    (lineMinimiserIterations t) (lineMinimiserParameterTolerance t)
    (maskSet t) (optimisationMask t) (epsilon t).

(** ** Outcomes and the trainer monad *)

Inductive outcome (A : Type) : Type :=
  | Ret (a : A)
  | Fault
  | NoFuel.

Arguments Ret {A}.
Arguments Fault {A}.
Arguments NoFuel {A}.

Definition Trainer (M A : Type) : Type :=
  ModelTrainer M -> outcome (A * ModelTrainer M).

Definition ret {M A} (a : A) : Trainer M A := fun t => Ret (a, t).

Definition bind {M A B} (c : Trainer M A) (k : A -> Trainer M B)
  : Trainer M B :=
  fun t => match c t with
           | Ret (a, t') => k a t'
           | Fault => Fault
           | NoFuel => NoFuel
           end.

Definition fault {M A} : Trainer M A := fun _ => Fault.
Definition nofuel {M A} : Trainer M A := fun _ => NoFuel.

Definition gets {M A} (f : ModelTrainer M -> A) : Trainer M A :=
  fun t => Ret (f t, t).

Definition modify {M} (f : ModelTrainer M -> ModelTrainer M)
  : Trainer M unit :=
  fun t => Ret (tt, f t).

(** A partial pure step: [None] is a fault. *)
Definition lift {M A} (o : option A) : Trainer M A :=
  match o with
  | Some a => ret a
  | None => fault
  end.

Notation "x <- c ;; k" := (bind c (fun x => k))
  (at level 100, c at next level, right associativity).
Notation "c ;;; k" := (bind c (fun _ => k))
  (at level 100, right associativity).

(** ** Member functions *)

Section Members.

Context {M : Type} {OM : Optimisable M} {K : Constants}.

Local Open Scope Q_scope.

(** The loop of [setParameters]: [i] runs over the mask, [pos] over the
    supplied vector [p]; [maskedParameters] starts as a copy of the model's
    full vector. *)
Fixpoint setParameters_loop (mask : list bool) (i pos : nat)
    (p maskedParameters : vec) : option vec :=
  match mask with
  | [] => Some maskedParameters
  | true :: rest =>
      match p !! pos with
      | Some x =>
          if decide (i < length maskedParameters)%nat
          then setParameters_loop rest (S i) (S pos) p
                 (<[i := x]> maskedParameters)
          else None
      | None => None
      end
  | false :: rest => setParameters_loop rest (S i) pos p maskedParameters
  end.

Definition setParameters (p : vec) : Trainer M unit :=
  masked <- gets maskSet;;
  if (masked : bool) then
    maskedParameters <- gets (fun t => getParametersVector (model t));;
    mask <- gets optimisationMask;;
    maskedParameters <- lift (setParameters_loop mask 0 0 p maskedParameters);;
    modify (fun t => with_model (setParametersVector maskedParameters (model t)) t)
  else
    modify (fun t => with_model (setParametersVector p (model t)) t).

(** The loop of [getParameters]: [concat] appends one element. *)
Fixpoint getParameters_loop (mask : list bool) (i : nat)
    (p maskedParameters : vec) : option vec :=
  match mask with
  | [] => Some maskedParameters
  | true :: rest =>
      match p !! i with
      | Some x => getParameters_loop rest (S i) p (maskedParameters ++ [x])
      | None => None
      end
  | false :: rest => getParameters_loop rest (S i) p maskedParameters
  end.

Definition getParameters : Trainer M vec :=
  masked <- gets maskSet;;
  if (masked : bool) then
    p <- gets (fun t => getParametersVector (model t));;
    mask <- gets optimisationMask;;
    if decide (length mask = length p)
    then lift (getParameters_loop mask 0 p [])
    else fault
  else
    gets (fun t => getParametersVector (model t)).

Definition errorFunction (params : vec) : Trainer M Q :=
  modify (fun t => with_functionEvaluations (functionEvaluations t + 1) t);;;
  setParameters params;;;
  gets (fun t => objective (model t)).

Definition calculateNumericalGradient (parameterNumber : nat) (params : vec)
  : Trainer M Q :=
  eps <- gets epsilon;;
  x <- lift (params !! parameterNumber);;
  fplus <- errorFunction (<[parameterNumber := x + eps]> params);;
  x <- lift (params !! parameterNumber);;
  fminus <- errorFunction (<[parameterNumber := x - eps]> params);;
  ret ((1 # 2) * ((fplus - fminus) / eps)).

(** The loop of [numericalGradients], [todo] iterations from index [i]. *)
Fixpoint numericalGradients_loop (todo i : nat) (params g : vec)
  : Trainer M vec :=
  match todo with
  | O => ret g
  | S todo' =>
      gi <- calculateNumericalGradient i params;;
      numericalGradients_loop todo' (S i) params (<[i := gi]> g)
  end.

(** [g.set_size(numParams)] gives a vector of [numParams] entries, each of
    which the loop overwrites. *)
Definition numericalGradients (params : vec) : Trainer M vec :=
  setParameters params;;;
  let numParams := length params in
  numericalGradients_loop numParams 0 params (replicate numParams 0).

Definition errorGradients (params : vec) : Trainer M vec :=
  analytic <- gets analyticGradients;;
  if (analytic : bool) then
    modify (fun t => with_gradientEvaluations (gradientEvaluations t + 1) t);;;
    setParameters params;;;
    gets (fun t => gradient (model t))
  else
    numericalGradients params.

(** A row of the gradient-check table: the index, the numeric estimate
    [delta], the analytic entry [gNew(i)] and their absolute difference. *)
Record GradientRow : Type := mkGradientRow {
  row_index : nat;
  row_delta : Q;
  row_analytic : Q;
  row_difference : Q
}.

Fixpoint checkGradient_loop (todo i pos : nat) (xOld gNew : vec)
    (rows : list GradientRow) : Trainer M (list GradientRow) :=
  match todo with
  | O => ret rows
  | S todo' =>
      masked <- gets maskSet;;
      step <-
        (if (masked : bool) then
           mask <- gets optimisationMask;;
           mi <- lift (mask !! i);;
           if (mi : bool) then
             delta <- calculateNumericalGradient pos xOld;;
             ret (delta, S pos, gNew)
           else
             if decide (i < length gNew)%nat
             then ret (0, pos, <[i := 0]> gNew)
             else fault
         else
           delta <- calculateNumericalGradient i xOld;;
           ret (delta, pos, gNew));;
      let '(delta, pos, gNew) := step in
      gi <- lift (gNew !! i);;
      checkGradient_loop todo' (S i) pos xOld gNew
        (rows ++ [mkGradientRow i delta gi (Num.abs (delta - gi))])
  end.

Definition checkGradient : Trainer M (list GradientRow) :=
  xOld <- getParameters;;
  gNew <- gets (fun t => gradient (model t));;
  let numParams := length gNew in
  checkGradient_loop numParams 0 0 xOld gNew [].

Definition lineFunction (param : vec) (lambda : Q) (direction : vec)
  : Trainer M Q :=
  xOld <- getParameters;;
  trial <- lift (vec_add param (vec_scale lambda direction));;
  f <- errorFunction trial;;
  setParameters xOld;;;
  ret f.

(** *** bracketMinimum *)

(** The output parameters [(br_min, br_mid, br_max)]. *)
Definition bracket : Type := (Q * Q * Q)%type.

(** The [while (fb > fa)] loop of the shrinking branch; it returns the
    final [b] and [c]. *)
Fixpoint bracketMinimum_shrink (fuel : nat) (a b c fa fb : Q)
    (params direction : vec) : Trainer M (Q * Q) :=
  if Num.ltb fa fb then
    match fuel with
    | O => nofuel
    | S fuel' =>
        let c := b in
        let b := a + (c - a) / PHI in
        fb <- lineFunction params b direction;;
        bracketMinimum_shrink fuel' a b c fa fb params direction
    end
  else ret (b, c).

(** The variables that live across the iterations of the expansion loop. *)
Record expansion : Type := mkExpansion {
  ex_a : Q; ex_b : Q; ex_c : Q;
  ex_fa : Q; ex_fb : Q; ex_fc : Q;
  ex_fu : Q;
  ex_bracket_found : bool
}.

Definition max_step : Q := 10.

(** The interpolated point [u] of one iteration. *)
Definition interpolate (s : expansion) : Num.xdouble :=
  let '(mkExpansion a b c fa fb fc _ _) := s in
  let r := (b - a) * (fb - fc) in
  let q := (b - c) * (fb - fa) in
  Num.xrsub b
    (Num.xdiv ((b - c) * q - (b - a) * r)
       (2 * (Num.sign (q - r) * Num.max (Num.abs (q - r)) TINY))).

(** The body of [while (fb > fc)]: the next loop state, or the output of
    one of the two [return] statements inside the loop. *)
Definition bracketMinimum_step (s : expansion) (params direction : vec)
  : Trainer M (expansion + bracket) :=
  let '(mkExpansion a b c fa fb fc fu bracket_found) := s in
  let u := interpolate s in
  let ulimit := b + max_step * (c - b) in
  let shift b c u fu bracket_found :=
    fu <- (if (bracket_found : bool) then ret fu
           else lineFunction params u direction);;
    ret (inl (mkExpansion b c u fb fc fu fu bracket_found)) in
  if Num.xpos (Num.xmul (Num.xrsub b u) (Num.xsub u c)) then
    let u := Num.xvalue u in
    fu <- lineFunction params u direction;;
    if Num.ltb fu fc then ret (inr (b, u, c))
    else if Num.ltb fb fu then ret (inr (a, c, u))
    else
      let u := c + PHI * (c - b) in
      shift b c u fu bracket_found
  else if Num.xpos (Num.xmul (Num.xrsub c u) (Num.xsub u ulimit)) then
    let u := Num.xvalue u in
    fu <- lineFunction params u direction;;
    if Num.ltb fu fc then
      let b := c in
      let c := u in
      let u := c + PHI * (c - b) in
      shift b c u fu bracket_found
    else
      shift b c u fu true
  else if Num.xnonneg (Num.xmul (Num.xsub u ulimit) (Num.Finite (ulimit - c))) then
    shift b c ulimit fu bracket_found
  else
    shift b c (c + PHI * (c - b)) fu bracket_found.

Fixpoint bracketMinimum_expand (fuel : nat) (s : expansion)
    (params direction : vec) : Trainer M (expansion + bracket) :=
  if Num.ltb (ex_fc s) (ex_fb s) then
    match fuel with
    | O => nofuel
    | S fuel' =>
        r <- bracketMinimum_step s params direction;;
        match r with
        | inl s' => bracketMinimum_expand fuel' s' params direction
        | inr out => ret (inr out)
        end
    end
  else ret (inl s).

(** The statements after the two branches: [br_mid = b] and the ordering
    of the outer points. *)
Definition bracketMinimum_finish (a b c : Q) : bracket :=
  if Num.ltb a c then (a, b, c) else (c, b, a).

Definition bracketMinimum (fuel : nat) (a b fa : Q) (params direction : vec)
  : Trainer M bracket :=
  fb <- lineFunction params b direction;;
  if Num.ltb fa fb then
    let c := b in
    let b := a + (c - a) / PHI in
    fb <- lineFunction params b direction;;
    bc <- bracketMinimum_shrink fuel a b c fa fb params direction;;
    ret (bracketMinimum_finish a (fst bc) (snd bc))
  else
    let c := b + PHI * (b - a) in
    fc <- lineFunction params c direction;;
    r <- bracketMinimum_expand fuel (mkExpansion a b c fa fb fc 0 false)
           params direction;;
    match r with
    | inl s => ret (bracketMinimum_finish (ex_a s) (ex_b s) (ex_c s))
    | inr out => ret out
    end.

(** *** lineMinimiser *)

(** The variables that live across the iterations of the [for] loop. *)
Record linesearch : Type := mkLinesearch {
  ls_br_min : Q; ls_br_max : Q;
  ls_w : Q; ls_v : Q; ls_x : Q;
  ls_e : Q; ls_d : Q;
  ls_fx : Q; ls_fv : Q; ls_fw : Q
}.

(** What one iteration does: it either executes [functionValue = fx;
    return;] or goes on with new values of the variables. *)
Inductive iteration : Type :=
  | Converged
  | Continue (s : linesearch).

(** The golden-section step towards the larger half of the bracket. *)
Definition golden_step (x xm br_min br_max : Q) : Q * Q :=
  let e := if Num.leb xm x then br_min - x else br_max - x in
  (e, CPHI * e).

(** The choice of [e] and [d]. *)
Definition trial_step (s : linesearch) (xm tol1 : Q) : Q * Q :=
  let '(mkLinesearch br_min br_max w v x e d fx fv fw) := s in
  if Num.ltb tol1 (Num.abs e) then
    let r := (fx - fv) * (x - w) in
    let q := (fx - fw) * (x - v) in
    let p := (x - v) * q - (x - w) * r in
    let q := 2 * (q - r) in
    let p := if Num.ltb 0 q then - p else p in
    let q := Num.abs q in
    if Num.leb (Num.abs ((1 # 2) * q * e)) (Num.abs p)
       || Num.leb p (q * (br_min - x))
       || Num.leb (q * (br_max - x)) p
    then golden_step x xm br_min br_max
    else
      let e := d in
      let d := p / q in
      let u := x + d in
      if Num.ltb (u - br_min) (2 * tol1) || Num.ltb (br_max - u) (2 * tol1)
      then (e, Num.sign (xm - x) * tol1)
      else (e, d)
  else golden_step x xm br_min br_max.

(** The bookkeeping after the evaluation of the trial point [u]. *)
Definition update (s : linesearch) (e d u fu : Q) : linesearch :=
  let '(mkLinesearch br_min br_max w v x _ _ fx fv fw) := s in
  if Num.leb fu fx then
    let br_min' := if Num.leb x u then x else br_min in
    let br_max' := if Num.leb x u then br_max else x in
    mkLinesearch br_min' br_max' x w u e d fu fw fx
  else
    let br_min' := if Num.ltb u x then u else br_min in
    let br_max' := if Num.ltb u x then br_max else u in
    if Num.leb fu fw || Num.eqb w x then
      mkLinesearch br_min' br_max' u w x e d fx fw fu
    else if Num.leb fu fv || Num.eqb v x || Num.eqb v w then
      mkLinesearch br_min' br_max' w u x e d fx fu fw
    else
      mkLinesearch br_min' br_max' w v x e d fx fv fw.

(** The body of the [for] loop. *)
Definition lineMinimiser_step (s : linesearch) (params direction : vec)
  : Trainer M iteration :=
  let x := ls_x s in
  let xm := (1 # 2) * (ls_br_min s + ls_br_max s) in
  let tol1 := TOL * Num.abs x + TINY in
  tolerance <- gets lineMinimiserParameterTolerance;;
  if Num.leb (Num.abs (x - xm)) tolerance
     && Num.ltb (ls_br_max s - ls_br_min s) (4 * tolerance)
  then
    modify (with_functionValue (ls_fx s));;;
    ret Converged
  else
    let '(e, d) := trial_step s xm tol1 in
    let u := if Num.leb tol1 (Num.abs d) then x + d
             else x + Num.sign d * tol1 in
    fu <- lineFunction params u direction;;
    ret (Continue (update s e d u fu)).

(** [todo] iterations of the [for] loop. *)
Fixpoint lineMinimiser_loop (todo : nat) (s : linesearch)
    (params direction : vec) : Trainer M linesearch :=
  match todo with
  | O => ret s
  | S todo' =>
      r <- lineMinimiser_step s params direction;;
      match r with
      | Converged => ret s
      | Continue s' => lineMinimiser_loop todo' s' params direction
      end
  end.

(** [lineMinimiser] returns its two output parameters [(fx, x)]. *)
Definition lineMinimiser (fuel : nat) (fa : Q) (params direction : vec)
  : Trainer M (Q * Q) :=
  br <- bracketMinimum fuel 0 1 fa params direction;;
  let '(br_min, br_mid, br_max) := br in
  let w := br_mid in
  let v := br_mid in
  let x := v in
  let e := 0 in
  fx <- lineFunction params x direction;;
  iterations <- gets lineMinimiserIterations;;
  s <- lineMinimiser_loop (Z.to_nat iterations)
         (mkLinesearch br_min br_max w v x e 0 fx fx fx) params direction;;
  ret (ls_fx s, ls_x s).

End Members.

(** * Properties *)

(** ** The mask loops *)

(** The number of [true] entries of a mask, and the rank of position [i]:
    the number of [true] entries before it. *)
Fixpoint count_true (mask : list bool) : nat :=
  match mask with
  | [] => 0
  | b :: rest => (if b then 1 else 0) + count_true rest
  end.

Definition rank (mask : list bool) (i : nat) : nat := count_true (take i mask).

Arguments rank : simpl never.

(** The spec's reading of "the active subset": the entries of [p] at the
    [true] positions of the mask, in ascending index order. *)
Fixpoint active_subset (mask : list bool) (p : vec) : vec :=
  match mask, p with
  | b :: mask', x :: p' =>
      if b then x :: active_subset mask' p' else active_subset mask' p'
  | _, _ => []
  end.

(** The spec's reading of "overwrite the active subset": walk the full
    vector, replace each [true] position by the next supplied value and
    keep every other position. *)
Fixpoint overwrite_active (mask : list bool) (full p : vec) : vec :=
  match mask, full with
  | b :: mask', x :: full' =>
      if b then
        match p with
        | y :: p' => y :: overwrite_active mask' full' p'
        | [] => x :: overwrite_active mask' full' []
        end
      else x :: overwrite_active mask' full' p
  | _, _ => full
  end.

Section MaskLoops.

Implicit Types (mask : list bool) (p full acc : vec) (i pos : nat).

Lemma count_true_le mask : count_true mask <= length mask.
Proof. induction mask as [|[] mask IH]; simpl; lia. Qed.

Lemma count_true_app mask1 mask2 :
  count_true (mask1 ++ mask2) = count_true mask1 + count_true mask2.
Proof. induction mask1 as [|[] mask1 IH]; simpl; lia. Qed.

Lemma rank_0 mask : rank mask 0 = 0.
Proof. unfold rank. by rewrite take_0. Qed.

Lemma rank_S b mask i :
  rank (b :: mask) (S i) = (if b then 1 else 0) + rank mask i.
Proof. reflexivity. Qed.

Lemma rank_le mask i : rank mask i <= count_true mask.
Proof.
  unfold rank. rewrite <- (take_drop i mask) at 2.
  rewrite count_true_app. lia.
Qed.

Lemma rank_lt mask i :
  mask !! i = Some true -> rank mask i < count_true mask.
Proof.
  revert i. induction mask as [|b mask IH]; intros [|i] Hi; simplify_eq/=.
  - rewrite rank_0. lia.
  - rewrite rank_S. specialize (IH _ Hi). lia.
Qed.

Lemma length_active_subset mask p :
  length mask = length p -> length (active_subset mask p) = count_true mask.
Proof.
  revert p. induction mask as [|[] mask IH]; intros [|x p] Hl;
    simplify_eq/=; auto.
Qed.

Lemma active_subset_lookup mask p i :
  length mask = length p -> mask !! i = Some true ->
  active_subset mask p !! rank mask i = p !! i.
Proof.
  revert p i. induction mask as [|b mask IH]; intros [|x p] [|i] Hl Hi;
    simplify_eq/=; auto.
  rewrite rank_S. destruct b; simpl; auto.
Qed.

Lemma length_overwrite_active mask full p :
  length (overwrite_active mask full p) = length full.
Proof.
  revert full p. induction mask as [|[] mask IH]; intros [|x full] [|y p];
    simpl; auto.
Qed.

Lemma overwrite_active_true mask full p i :
  count_true mask <= length p -> i < length full -> mask !! i = Some true ->
  overwrite_active mask full p !! i = p !! rank mask i.
Proof.
  revert full p i. induction mask as [|b mask IH]; intros [|x full] p [|i] Hc Hi Hm;
    simplify_eq/=; try lia.
  - destruct p; simpl in *; [lia|done].
  - rewrite rank_S. destruct b.
    + destruct p as [|y p]; simpl in *; [lia|]. apply IH; [lia|lia|done].
    + simpl. apply IH; [lia|lia|done].
Qed.

Lemma overwrite_active_other mask full p i :
  mask !! i <> Some true ->
  overwrite_active mask full p !! i = full !! i.
Proof.
  revert full p i. induction mask as [|b mask IH]; intros [|x full] p [|i] Hm;
    simplify_eq/=; auto.
  - destruct b; [done|]. reflexivity.
  - destruct b; [destruct p|]; simpl; auto.
Qed.

(** What is written back is what was read: overwriting the active subset
    with itself changes nothing. *)
Lemma overwrite_active_subset mask full :
  overwrite_active mask full (active_subset mask full) = full.
Proof.
  revert full. induction mask as [|[] mask IH]; intros [|x full]; simpl;
    auto; by rewrite IH.
Qed.

(** Overwriting twice keeps the second values only. *)
Lemma overwrite_active_twice mask full p q :
  count_true mask <= length p -> count_true mask <= length q ->
  overwrite_active mask (overwrite_active mask full p) q
  = overwrite_active mask full q.
Proof.
  revert full p q. induction mask as [|[] mask IH]; intros [|x full] p q Hp Hq;
    simpl in *; auto.
  - destruct p as [|y p], q as [|z q]; simpl in *; try lia.
    f_equal. apply IH; lia.
  - f_equal. by apply IH.
Qed.

Lemma active_subset_overwrite mask full p :
  length mask = length full -> length p = count_true mask ->
  active_subset mask (overwrite_active mask full p) = p.
Proof.
  revert full p. induction mask as [|[] mask IH]; intros [|x full] p Hl Hp;
    simplify_eq/=.
  - by destruct p.
  - destruct p as [|y p]; simplify_eq/=. f_equal. by apply IH.
  - by apply IH.
Qed.

(** Only the first [count_true mask] supplied values are looked at. *)
Lemma overwrite_active_take mask full p :
  overwrite_active mask full (take (count_true mask) p)
  = overwrite_active mask full p.
Proof.
  revert full p. induction mask as [|[] mask IH]; intros [|x full] p;
    simpl; auto.
  - destruct p as [|y p]; simpl; [done|]. f_equal. apply IH.
  - f_equal. apply IH.
Qed.

(** The loop of [getParameters] computes the active subset. *)
Lemma getParameters_loop_spec mask : forall i p acc,
  i + length mask <= length p ->
  getParameters_loop mask i p acc
  = Some (acc ++ active_subset mask (drop i p)).
Proof.
  induction mask as [|b mask IH]; intros i p acc Hl; simpl in *.
  - by rewrite app_nil_r.
  - destruct (p !! i) as [x|] eqn:Hx.
    2:{ apply lookup_ge_None in Hx. lia. }
    rewrite (drop_S _ _ _ Hx). destruct b.
    + rewrite IH by lia. by rewrite <- app_assoc.
    + by rewrite IH by lia.
Qed.

(** The loop of [setParameters]: it succeeds exactly when every [true]
    position lies inside the full vector and finds a supplied value, and
    then it computes the overwritten vector. *)
Lemma setParameters_loop_spec mask : forall i pos p full,
  i + length mask <= length full ->
  pos + count_true mask <= length p ->
  setParameters_loop mask i pos p full
  = Some (take i full ++ overwrite_active mask (drop i full) (drop pos p)).
Proof.
  induction mask as [|b mask IH]; intros i pos p full Hl Hp; simpl in *.
  - by rewrite take_drop.
  - destruct (full !! i) as [x|] eqn:Hx.
    2:{ apply lookup_ge_None in Hx. lia. }
    rewrite (drop_S _ _ _ Hx). destruct b.
    + destruct (p !! pos) as [y|] eqn:Hy.
      2:{ apply lookup_ge_None in Hy. lia. }
      rewrite (drop_S _ _ _ Hy).
      rewrite decide_True by lia.
      rewrite IH by (rewrite ?length_insert; lia).
      f_equal. rewrite take_insert_lt, drop_insert_lt by lia.
      rewrite (take_S_r _ _ _ Hx).
      rewrite insert_app_r_alt by (rewrite length_take; lia).
      rewrite length_take, Nat.min_l, Nat.sub_diag by lia.
      by rewrite <- app_assoc.
    + rewrite IH by lia.
      f_equal. rewrite (take_S_r _ _ _ Hx), <- app_assoc. reflexivity.
Qed.

Lemma setParameters_loop_short mask : forall i pos p full,
  i + length mask <= length full ->
  pos <= length p ->
  length p < pos + count_true mask ->
  setParameters_loop mask i pos p full = None.
Proof.
  induction mask as [|b mask IH]; intros i pos p full Hl Hpos Hp; simpl in *.
  - lia.
  - destruct b.
    + destruct (p !! pos) as [y|] eqn:Hy; [|done].
      apply lookup_lt_Some in Hy.
      rewrite decide_True by lia.
      apply IH; rewrite ?length_insert; lia.
    + apply IH; lia.
Qed.

End MaskLoops.

(** ** The mask at the level of the trainer *)

Section Masking.

Context {M : Type} {OM : Optimisable M}.

Implicit Types (t : ModelTrainer M) (p : vec).

(** The full vector that [setParameters p] hands to the model. *)
Definition installed t p : vec :=
  if maskSet t
  then overwrite_active (optimisationMask t) (getParametersVector (model t)) p
  else p.

(** The mask, when set, has one entry per model parameter, and the
    supplied vector has a value for every [true] entry. *)
Definition mask_fits t : Prop :=
  maskSet t = true ->
  length (optimisationMask t) = length (getParametersVector (model t)).

Definition covers t p : Prop :=
  maskSet t = true -> count_true (optimisationMask t) <= length p.

Lemma setParameters_unmasked t p :
  maskSet t = false ->
  setParameters p t = Ret (tt, with_model (setParametersVector p (model t)) t).
Proof. intros E. unfold setParameters, bind, gets, modify. by rewrite E. Qed.

Lemma setParameters_masked t p :
  maskSet t = true ->
  length (optimisationMask t) <= length (getParametersVector (model t)) ->
  count_true (optimisationMask t) <= length p ->
  setParameters p t
  = Ret (tt, with_model
               (setParametersVector
                  (overwrite_active (optimisationMask t)
                     (getParametersVector (model t)) p) (model t)) t).
Proof.
  intros E Hl Hp. unfold setParameters, bind, gets, modify, lift. rewrite E.
  rewrite setParameters_loop_spec by (simpl; lia). simpl.
  by rewrite drop_0.
Qed.

Lemma setParameters_short t p :
  maskSet t = true ->
  length (optimisationMask t) <= length (getParametersVector (model t)) ->
  length p < count_true (optimisationMask t) ->
  setParameters p t = Fault.
Proof.
  intros E Hl Hp. unfold setParameters, bind, gets, modify, lift. rewrite E.
  rewrite setParameters_loop_short by (simpl; lia). reflexivity.
Qed.

Lemma setParameters_ok t p :
  mask_fits t -> covers t p ->
  setParameters p t
  = Ret (tt, with_model (setParametersVector (installed t p) (model t)) t).
Proof.
  intros Hf Hc. unfold installed. destruct (maskSet t) eqn:E.
  - apply setParameters_masked; auto. rewrite Hf; auto.
  - by apply setParameters_unmasked.
Qed.

Lemma getParameters_unmasked t :
  maskSet t = false ->
  getParameters t = Ret (getParametersVector (model t), t).
Proof. intros E. unfold getParameters, bind, gets. by rewrite E. Qed.

Lemma getParameters_masked t :
  maskSet t = true ->
  length (optimisationMask t) = length (getParametersVector (model t)) ->
  getParameters t
  = Ret (active_subset (optimisationMask t) (getParametersVector (model t)), t).
Proof.
  intros E Hl. unfold getParameters, bind, gets. rewrite E.
  rewrite decide_True by done.
  rewrite getParameters_loop_spec by (simpl; lia).
  by rewrite drop_0.
Qed.

Lemma getParameters_mismatch t :
  maskSet t = true ->
  length (optimisationMask t) <> length (getParametersVector (model t)) ->
  getParameters t = Fault.
Proof.
  intros E Hl. unfold getParameters, bind, gets. rewrite E.
  by rewrite decide_False.
Qed.

(** [getParameters] never changes the trainer. *)
Lemma getParameters_pure t q t' :
  getParameters t = Ret (q, t') -> t' = t.
Proof.
  unfold getParameters, bind, gets, lift, fault, ret.
  destruct (maskSet t); [|congruence].
  destruct (decide _); [|done].
  destruct (getParameters_loop _ _ _ _); congruence.
Qed.

End Masking.

(** ** Concrete trainers for the examples *)

(** A model over a bare parameter vector whose objective is the sum of the
    parameters and whose gradient is constantly one. *)
Definition sumModel : Optimisable vec :=
  vecModel (fun p => foldr Qplus 0%Q p) (fun p => map (fun _ => 1%Q) p).

Lemma vecModel_stored obj grad : @StoredParameters vec (vecModel obj grad).
Proof. by split. Qed.

(** The mask is installed by a member function declared in ModelTrainer.h:
    it stores the mask and raises [maskSet]. *)
Definition with_mask {M} (mask : list bool) (t : ModelTrainer M)
  : ModelTrainer M :=
  mkModelTrainer (model t) (display t) (errorTolerance t)
    (parameterTolerance t) (gradientCheck t) (analyticGradients t)
    (functionEvaluations t) (gradientEvaluations t) (functionValue t)
    (lineMinimiserIterations t) (lineMinimiserParameterTolerance t)
    true mask (epsilon t).

(** ** C4, C5, C6: masked reads and writes *)

Section MaskClaims.

Context {M : Type} {OM : Optimisable M}.

Implicit Types (t : ModelTrainer M) (p : vec).

(** C4.  With a mask set, [setParameters] hands to the model a full vector
    that holds the supplied values at the [true] positions of the mask, in
    ascending order (the value for position [i] is the supplied entry
    number [rank mask i]), and the model's previous value at every [false]
    position; [getParameters] returns exactly the entries of the model's
    vector at the [true] positions, in ascending order. *)
Theorem masked_set_and_get t p :
  maskSet t = true ->
  length (optimisationMask t) = length (getParametersVector (model t)) ->
  count_true (optimisationMask t) <= length p ->
  let mask := optimisationMask t in
  let full := getParametersVector (model t) in
  (exists full',
      setParameters p t
      = Ret (tt, with_model (setParametersVector full' (model t)) t)
      /\ length full' = length full
      /\ (forall i, mask !! i = Some true -> full' !! i = p !! rank mask i)
      /\ (forall i, mask !! i = Some false -> full' !! i = full !! i))
  /\ (exists q,
         getParameters t = Ret (q, t)
         /\ length q = count_true mask
         /\ (forall i, mask !! i = Some true -> q !! rank mask i = full !! i)).
Proof.
  intros E Hl Hp mask full. subst mask full. split.
  - eexists. split; [|split; [|split]].
    + apply setParameters_masked; auto. lia.
    + apply length_overwrite_active.
    + intros i Hi. apply overwrite_active_true; auto.
      apply lookup_lt_Some in Hi. lia.
    + intros i Hi. apply overwrite_active_other. congruence.
  - eexists. split; [|split].
    + by apply getParameters_masked.
    + by apply length_active_subset.
    + intros i Hi. by apply active_subset_lookup.
Qed.

(** C5, as the code has it.  [setParameters] has no check of the length of
    the supplied vector.  With a mask set (no longer than the model's
    vector), a vector with fewer entries than the mask has [true] entries
    stops the call at the read of [p(pos)] past its end; a vector with more
    entries is accepted, and the call behaves as on its first
    [count_true mask] entries: the excess is ignored. *)
Theorem setParameters_length_mismatch t p :
  maskSet t = true ->
  length (optimisationMask t) <= length (getParametersVector (model t)) ->
  (length p < count_true (optimisationMask t) -> setParameters p t = Fault)
  /\ (count_true (optimisationMask t) <= length p ->
      setParameters p t
      = setParameters (take (count_true (optimisationMask t)) p) t
      /\ exists t', setParameters p t = Ret (tt, t')).
Proof.
  intros E Hl. split.
  - intros Hp. by apply setParameters_short.
  - intros Hp. rewrite !setParameters_masked; auto.
    + rewrite overwrite_active_take. eauto.
    + rewrite length_take. lia.
Qed.

(** C6.  When the mask, if set, has one entry per model parameter,
    [getParameters] returns a vector [q] and leaves the trainer as it is,
    and [setParameters q] then succeeds and leaves the model's full
    parameter vector, and with it the whole trainer, as they were.  Under
    a mask without a [true] entry, [q] is empty. *)
Theorem get_then_set_is_identity `{!StoredParameters M} t :
  (maskSet t = true ->
   length (optimisationMask t) = length (getParametersVector (model t))) ->
  exists q t',
    getParameters t = Ret (q, t)
    /\ setParameters q t = Ret (tt, t')
    /\ getParametersVector (model t') = getParametersVector (model t)
    /\ t' = t
    /\ (maskSet t = true -> count_true (optimisationMask t) = 0 -> q = []).
Proof.
  intros Hl. destruct (maskSet t) eqn:E.
  - specialize (Hl eq_refl).
    exists (active_subset (optimisationMask t) (getParametersVector (model t))).
    eexists. split; [by apply getParameters_masked|].
    split.
    { apply setParameters_masked; auto; [lia|].
      rewrite length_active_subset; auto. }
    rewrite overwrite_active_subset, set_get.
    assert (with_model (model t) t = t) as -> by by destruct t.
    repeat split; auto.
    intros _ H0. apply nil_length_inv. by rewrite length_active_subset.
  - exists (getParametersVector (model t)). eexists.
    split; [by apply getParameters_unmasked|].
    split; [by apply setParameters_unmasked|].
    rewrite set_get.
    assert (with_model (model t) t = t) as -> by by destruct t.
    repeat split; auto. done.
Qed.

End MaskClaims.

(** A two-parameter model under the mask [[true; false]]. *)
Definition masked_pair : ModelTrainer vec :=
  with_mask [true; false] (newModelTrainer [5; 7]%Q).

Lemma masked_set_and_get_witness :
  (exists full',
      @setParameters vec sumModel [9%Q] masked_pair
      = Ret (tt, with_model full' masked_pair)
      /\ length full' = 2
      /\ (forall i, [true; false] !! i = Some true ->
                    full' !! i = [9%Q] !! rank [true; false] i)
      /\ (forall i, [true; false] !! i = Some false ->
                    full' !! i = [5; 7]%Q !! i))
  /\ (exists q,
         @getParameters vec sumModel masked_pair = Ret (q, masked_pair)
         /\ length q = 1
         /\ (forall i, [true; false] !! i = Some true ->
                       q !! rank [true; false] i = [5; 7]%Q !! i)).
Proof.
  apply (@masked_set_and_get vec sumModel masked_pair [9%Q]);
    [reflexivity | reflexivity | simpl; lia].
Defined.

(** C5 fails as stated: under the mask [[true; false]] (one [true] entry)
    a vector of two values is accepted without any failure; its first
    value is written and the second is dropped. *)
Lemma setParameters_accepts_longer_vector :
  maskSet masked_pair = true
  /\ length [9; 4]%Q <> count_true (optimisationMask masked_pair)
  /\ @setParameters vec sumModel [9; 4]%Q masked_pair
     = Ret (tt, with_model [9; 7]%Q masked_pair).
Proof. repeat split. simpl. lia. Qed.

Lemma setParameters_length_mismatch_witness :
  (length [9; 4]%Q < count_true (optimisationMask masked_pair) ->
   @setParameters vec sumModel [9; 4]%Q masked_pair = Fault)
  /\ (count_true (optimisationMask masked_pair) <= length [9; 4]%Q ->
      @setParameters vec sumModel [9; 4]%Q masked_pair
      = @setParameters vec sumModel
          (take (count_true (optimisationMask masked_pair)) [9; 4]%Q)
          masked_pair
      /\ exists t', @setParameters vec sumModel [9; 4]%Q masked_pair
                    = Ret (tt, t')).
Proof.
  apply (@setParameters_length_mismatch vec sumModel masked_pair [9; 4]%Q);
    [reflexivity | simpl; lia].
Defined.

Lemma get_then_set_is_identity_witness :
  exists q t',
    @getParameters vec sumModel masked_pair = Ret (q, masked_pair)
    /\ @setParameters vec sumModel q masked_pair = Ret (tt, t')
    /\ @getParametersVector vec sumModel (model t')
       = @getParametersVector vec sumModel (model masked_pair)
    /\ t' = masked_pair
    /\ (maskSet masked_pair = true ->
        count_true (optimisationMask masked_pair) = 0 -> q = []).
Proof.
  apply (@get_then_set_is_identity vec sumModel
           (vecModel_stored _ _) masked_pair).
  reflexivity.
Defined.

(** ** The objective oracle and the line function *)

Section Oracle.

Context {M : Type} {OM : Optimisable M} {SP : StoredParameters M}.

Implicit Types (t : ModelTrainer M) (p : vec).

Local Open Scope Q_scope.

(** [n] more function evaluations on the counter, nothing else changed. *)
Definition bump (n : Z) t : ModelTrainer M :=
  with_functionEvaluations (functionEvaluations t + n)%Z t.

(** The objective of the model once [setParameters p] has run. *)
Definition objective_at t p : Q :=
  objective (setParametersVector (installed t p) (model t)).

(** The 1-D function that [lineFunction] evaluates along [direction]. *)
Definition lineValue t (param direction : vec) (lambda : Q) : Q :=
  objective_at t (zip_with Qplus param (vec_scale lambda direction)).

Lemma bump_0 t : bump 0 t = t.
Proof. unfold bump. rewrite Z.add_0_r. by destruct t. Qed.

Lemma bump_bump n k t : bump n (bump k t) = bump (k + n) t.
Proof. unfold bump. simpl. by rewrite Z.add_assoc. Qed.

Lemma mask_fits_bump n t : mask_fits (bump n t) <-> mask_fits t.
Proof. reflexivity. Qed.

Lemma covers_bump n t p : covers (bump n t) p <-> covers t p.
Proof. reflexivity. Qed.

Lemma lineValue_bump n t param direction lambda :
  lineValue (bump n t) param direction lambda
  = lineValue t param direction lambda.
Proof. reflexivity. Qed.

Lemma length_installed t p :
  mask_fits t -> covers t p -> maskSet t = true ->
  length (installed t p) = length (getParametersVector (model t)).
Proof.
  intros _ _ E. unfold installed. rewrite E. apply length_overwrite_active.
Qed.

Lemma errorFunction_ok t p :
  mask_fits t -> covers t p ->
  errorFunction p t
  = Ret (objective_at t p,
         with_model (setParametersVector (installed t p) (model t)) (bump 1 t)).
Proof.
  intros Hf Hc. unfold errorFunction, bind, modify, gets.
  rewrite (setParameters_ok (with_functionEvaluations _ t) p) by done.
  reflexivity.
Qed.

(** A call of [errorFunction] that returns had a fitting vector. *)
Lemma errorFunction_inv t p f t' :
  mask_fits t -> errorFunction p t = Ret (f, t') -> covers t p.
Proof.
  intros Hf Hr E. specialize (Hf E).
  destruct (decide (count_true (optimisationMask t) <= length p)%nat) as [|Hn];
    [done|].
  unfold errorFunction, bind, modify in Hr.
  rewrite setParameters_short in Hr; simpl; auto; try done; lia.
Qed.


Lemma mask_fits_after t p :
  mask_fits t -> covers t p ->
  mask_fits
    (with_model (setParametersVector (installed t p) (model t)) (bump 1 t)).
Proof.
  intros Hf Hp E. simpl in *. rewrite get_set, length_installed; auto.
Qed.

Lemma installed_after t p q :
  mask_fits t -> covers t p -> covers t q ->
  installed
    (with_model (setParametersVector (installed t p) (model t)) (bump 1 t)) q
  = installed t q.
Proof.
  intros Hf Hp Hq. unfold installed. simpl. rewrite get_set.
  destruct (maskSet t) eqn:E; [|done].
  by rewrite overwrite_active_twice by auto.
Qed.

Lemma vec_add_Some (u v : vec) :
  length u = length v -> vec_add u v = Some (zip_with Qplus u v).
Proof. intros E. unfold vec_add. by rewrite decide_True. Qed.

Lemma vec_add_inv (u v w : vec) :
  vec_add u v = Some w ->
  length u = length v /\ w = zip_with Qplus u v /\ length w = length u.
Proof.
  unfold vec_add. destruct (decide _) as [E|]; [|done].
  intros [= <-]. repeat split; auto.
  rewrite length_zip_with. lia.
Qed.

Lemma length_vec_scale lambda (v : vec) :
  length (vec_scale lambda v) = length v.
Proof. apply length_map. Qed.

(** What [getParameters] returns when it returns. *)
Definition observed t : vec :=
  if maskSet t
  then active_subset (optimisationMask t) (getParametersVector (model t))
  else getParametersVector (model t).

Lemma getParameters_ok t :
  mask_fits t -> getParameters t = Ret (observed t, t).
Proof.
  intros Hf. unfold observed. destruct (maskSet t) eqn:E.
  - by apply getParameters_masked; auto.
  - by apply getParameters_unmasked.
Qed.

Lemma getParameters_inv t q t' :
  getParameters t = Ret (q, t') -> mask_fits t /\ q = observed t /\ t' = t.
Proof.
  intros Hr. assert (mask_fits t) as Hf.
  { intros E. destruct (decide (length (optimisationMask t)
                                = length (getParametersVector (model t))));
      [done|].
    by rewrite getParameters_mismatch in Hr. }
  rewrite getParameters_ok in Hr by done. by simplify_eq.
Qed.

Lemma installed_observed t :
  mask_fits t -> installed t (observed t) = getParametersVector (model t).
Proof.
  intros Hf. unfold installed, observed. destruct (maskSet t); [|done].
  apply overwrite_active_subset.
Qed.

Lemma covers_observed t : mask_fits t -> covers t (observed t).
Proof.
  intros Hf E. unfold observed. rewrite E.
  rewrite length_active_subset; auto.
Qed.

(** [lineFunction] returns the value of the line function and leaves the
    trainer as it was, one function evaluation apart. *)
Lemma lineFunction_ok t param lambda direction :
  mask_fits t -> covers t param -> length param = length direction ->
  lineFunction param lambda direction t
  = Ret (lineValue t param direction lambda, bump 1 t).
Proof.
  intros Hf Hc Hl. unfold lineFunction, bind.
  rewrite getParameters_ok by done.
  rewrite vec_add_Some by (by rewrite length_vec_scale). simpl.
  set (trial := zip_with Qplus param (vec_scale lambda direction)).
  assert (covers t trial) as Hct.
  { intros E. unfold trial. rewrite length_zip_with, length_vec_scale.
    specialize (Hc E). lia. }
  rewrite errorFunction_ok by done.
  rewrite setParameters_ok.
  - rewrite installed_after; auto using covers_observed.
    rewrite installed_observed by done. simpl.
    by rewrite set_set, set_get.
  - by apply mask_fits_after.
  - intros E. by apply (covers_observed t).
Qed.

Lemma lineFunction_inv t param lambda direction f t' :
  lineFunction param lambda direction t = Ret (f, t') ->
  mask_fits t /\ covers t param /\ length param = length direction.
Proof.
  unfold lineFunction, bind. intros Hr.
  destruct (getParameters t) as [[q t1]| |] eqn:Hg; try done.
  apply getParameters_inv in Hg as (Hf & -> & ->).
  destruct (vec_add _ _) as [trial|] eqn:Hv; [|done]. simpl in Hr.
  apply vec_add_inv in Hv as (Hl & -> & Hlen).
  rewrite length_vec_scale in Hl.
  destruct (errorFunction _ t) as [[f1 t1]| |] eqn:He; try done.
  apply errorFunction_inv in He; [|done].
  repeat split; auto.
  intros E. specialize (He E). rewrite Hlen in He. done.
Qed.

End Oracle.

(** ** C10 and C3: the line function and the central difference *)

Section OracleClaims.

Context {M : Type} {OM : Optimisable M} {SP : StoredParameters M}.

Implicit Types (t : ModelTrainer M) (p : vec).

Local Open Scope Q_scope.

(** C10.  [lineFunction] returns whenever the mask fits the model and the
    vectors fit each other, and whenever it returns, the result is the
    objective at [param + lambda * direction] and the parameters are as
    before the call: [getParameters] gives the same vector after as
    before, and so does the model. *)
Theorem lineFunction_restores_parameters t param lambda direction :
  (mask_fits t -> covers t param -> length param = length direction ->
   lineFunction param lambda direction t
   = Ret (lineValue t param direction lambda, bump 1 t))
  /\ (forall f t',
         lineFunction param lambda direction t = Ret (f, t') ->
         exists xOld,
           getParameters t = Ret (xOld, t)
           /\ getParameters t' = Ret (xOld, t')
           /\ getParametersVector (model t') = getParametersVector (model t)
           /\ exists trial,
               vec_add param (vec_scale lambda direction) = Some trial
               /\ errorFunction trial t
                  = Ret (f, with_model
                              (setParametersVector (installed t trial) (model t))
                              (bump 1 t))).
Proof.
  split; [apply lineFunction_ok|].
  intros f t' Hr.
  destruct (lineFunction_inv _ _ _ _ _ _ Hr) as (Hf & Hc & Hl).
  rewrite lineFunction_ok in Hr by done. simplify_eq.
  exists (observed t). split; [by apply getParameters_ok|].
  split; [by apply (getParameters_ok (bump 1 t))|].
  split; [done|].
  eexists. split; [apply vec_add_Some; by rewrite length_vec_scale|].
  apply errorFunction_ok; [done|].
  intros E. rewrite length_zip_with, length_vec_scale. specialize (Hc E). lia.
Qed.


End OracleClaims.

Lemma lineFunction_restores_parameters_witness :
  (@mask_fits vec sumModel masked_pair -> covers masked_pair [2%Q] ->
   length [2%Q] = length [3%Q] ->
   @lineFunction vec sumModel [2%Q] (1 # 2) [3%Q] masked_pair
   = Ret (@lineValue vec sumModel masked_pair [2%Q] [3%Q] (1 # 2),
          bump 1 masked_pair))
  /\ (forall f t',
         @lineFunction vec sumModel [2%Q] (1 # 2) [3%Q] masked_pair
         = Ret (f, t') ->
         exists xOld,
           @getParameters vec sumModel masked_pair = Ret (xOld, masked_pair)
           /\ @getParameters vec sumModel t' = Ret (xOld, t')
           /\ @getParametersVector vec sumModel (model t')
              = @getParametersVector vec sumModel (model masked_pair)
           /\ exists trial,
               vec_add [2%Q] (vec_scale (1 # 2) [3%Q]) = Some trial
               /\ @errorFunction vec sumModel trial masked_pair
                  = Ret (f, with_model
                              (@setParametersVector vec sumModel
                                 (@installed vec sumModel masked_pair trial)
                                 (model masked_pair))
                              (bump 1 masked_pair))).
Proof.
  apply (@lineFunction_restores_parameters vec sumModel
           (vecModel_stored _ _) masked_pair [2%Q] (1 # 2)%Q [3%Q]).
Defined.


(** ** C7: the evaluation counters *)

(** The flag [analyticGradients] is a training option, set through a member
    function declared in ModelTrainer.h. *)
Definition with_analyticGradients {M} (b : bool) (t : ModelTrainer M)
  : ModelTrainer M :=
  mkModelTrainer (model t) (display t) (errorTolerance t)
    (parameterTolerance t) (gradientCheck t) b
    (functionEvaluations t) (gradientEvaluations t) (functionValue t)
    (lineMinimiserIterations t) (lineMinimiserParameterTolerance t)
    (maskSet t) (optimisationMask t) (epsilon t).

(** The calls a client can make on a trainer. *)
Inductive operation : Type :=
  | OpSetParameters (p : vec)
  | OpGetParameters
  | OpErrorFunction (params : vec)
  | OpErrorGradients (params : vec)
  | OpNumericalGradients (params : vec)
  | OpCalculateNumericalGradient (parameterNumber : nat) (params : vec)
  | OpCheckGradient
  | OpLineFunction (param : vec) (lambda : Q) (direction : vec)
  | OpBracketMinimum (fuel : nat) (a b fa : Q) (params direction : vec)
  | OpLineMinimiser (fuel : nat) (fa : Q) (params direction : vec).

Section Counters.

Context {M : Type} {OM : Optimisable M} {K : Constants}.

Implicit Types (t : ModelTrainer M) (p : vec).

(** The trainer after a call, its result forgotten. *)
Definition after {A} (c : Trainer M A) : ModelTrainer M -> outcome (ModelTrainer M) :=
  fun t => match c t with
           | Ret (_, t') => Ret t'
           | Fault => Fault
           | NoFuel => NoFuel
           end.

Definition run (op : operation) : ModelTrainer M -> outcome (ModelTrainer M) :=
  match op with
  | OpSetParameters p => after (setParameters p)
  | OpGetParameters => after getParameters
  | OpErrorFunction params => after (errorFunction params)
  | OpErrorGradients params => after (errorGradients params)
  | OpNumericalGradients params => after (numericalGradients params)
  | OpCalculateNumericalGradient i params =>
      after (calculateNumericalGradient i params)
  | OpCheckGradient => after checkGradient
  | OpLineFunction param lambda direction =>
      after (lineFunction param lambda direction)
  | OpBracketMinimum fuel a b fa params direction =>
      after (bracketMinimum fuel a b fa params direction)
  | OpLineMinimiser fuel fa params direction =>
      after (lineMinimiser fuel fa params direction)
  end.

(** A call that adds exactly [n] function evaluations and [k] gradient
    evaluations whenever it returns. *)
Definition counts {A} (n k : Z) (c : Trainer M A) : Prop :=
  forall t a t', c t = Ret (a, t') ->
    functionEvaluations t' = (functionEvaluations t + n)%Z
    /\ gradientEvaluations t' = (gradientEvaluations t + k)%Z.

(** A call that lowers neither counter. *)
Definition grows {A} (c : Trainer M A) : Prop :=
  forall t a t', c t = Ret (a, t') ->
    (functionEvaluations t <= functionEvaluations t')%Z
    /\ (gradientEvaluations t <= gradientEvaluations t')%Z.

Lemma counts_grows {A} n k (c : Trainer M A) :
  (0 <= n)%Z -> (0 <= k)%Z -> counts n k c -> grows c.
Proof. intros Hn Hk Hc t a t' Hr. destruct (Hc _ _ _ Hr). lia. Qed.

Lemma counts_ret {A} (a : A) : counts 0 0 (ret a).
Proof. intros t b t' [= <- <-]. lia. Qed.

Lemma counts_gets {A} (f : ModelTrainer M -> A) : counts 0 0 (gets f).
Proof. intros t b t' [= <- <-]. lia. Qed.

Lemma counts_lift {A} n k (o : option A) :
  (forall a, o = Some a -> n = 0%Z /\ k = 0%Z) -> counts n k (lift o).
Proof.
  intros H t b t' Hr. destruct o as [a|]; [|done].
  destruct (H a eq_refl) as [-> ->]. injection Hr as <- <-. lia.
Qed.

Lemma counts_fault {A} n k : counts n k (@fault M A).
Proof. by intros t a t'. Qed.

Lemma counts_bind {A B} n1 k1 n2 k2 n k
    (c : Trainer M A) (f : A -> Trainer M B) :
  counts n1 k1 c -> (forall a, counts n2 k2 (f a)) ->
  n = (n1 + n2)%Z -> k = (k1 + k2)%Z ->
  counts n k (bind c f).
Proof.
  intros Hc Hf -> -> t b t' Hr. unfold bind in Hr.
  destruct (c t) as [[a t1]| |] eqn:E; try done.
  destruct (Hc _ _ _ E). destruct (Hf _ _ _ _ Hr). lia.
Qed.

Lemma grows_ret {A} (a : A) : grows (ret a).
Proof. intros t b t' [= <- <-]. lia. Qed.

Lemma grows_gets {A} (f : ModelTrainer M -> A) : grows (gets f).
Proof. intros t b t' [= <- <-]. lia. Qed.

Lemma grows_lift {A} (o : option A) : grows (lift o).
Proof. destruct o; [apply grows_ret|]. by intros t b t'. Qed.

Lemma grows_fault {A} : grows (@fault M A).
Proof. by intros t a t'. Qed.

Lemma grows_nofuel {A} : grows (@nofuel M A).
Proof. by intros t a t'. Qed.

Lemma grows_modify (f : ModelTrainer M -> ModelTrainer M) :
  (forall t, (functionEvaluations t <= functionEvaluations (f t))%Z
             /\ (gradientEvaluations t <= gradientEvaluations (f t))%Z) ->
  grows (modify f).
Proof. intros H t [] t' [= <-]. apply H. Qed.

Lemma grows_bind {A B} (c : Trainer M A) (f : A -> Trainer M B) :
  grows c -> (forall a, grows (f a)) -> grows (bind c f).
Proof.
  intros Hc Hf t b t' Hr. unfold bind in Hr.
  destruct (c t) as [[a t1]| |] eqn:E; try done.
  destruct (Hc _ _ _ E). destruct (Hf _ _ _ _ Hr). lia.
Qed.

Create HintDb grows discriminated.

(** One step of a proof that a call lowers no counter. *)
Ltac grows_step :=
  match goal with
  | |- grows (bind _ _) => apply grows_bind; [|intros ?]
  | |- grows (ret _) => apply grows_ret
  | |- grows (gets _) => apply grows_gets
  | |- grows (lift _) => apply grows_lift
  | |- grows fault => apply grows_fault
  | |- grows nofuel => apply grows_nofuel
  | |- grows (modify _) => apply grows_modify; intros ?; simpl; lia
  | |- grows (if ?b then _ else _) => destruct b
  | |- grows (match ?x with _ => _ end) => destruct x
  | |- grows _ => solve [auto with grows]
  end.

Ltac grows := repeat grows_step.

Lemma counts_setParameters p : counts 0 0 (setParameters p).
Proof.
  intros t [] t'. unfold setParameters, bind, gets, modify, lift, ret, fault.
  destruct (maskSet t).
  - destruct (setParameters_loop _ _ _ _ _); [|done]. intros [= <-]. simpl. lia.
  - intros [= <-]. simpl. lia.
Qed.

Lemma counts_getParameters : counts 0 0 (@getParameters M OM).
Proof.
  intros t a t'. unfold getParameters, bind, gets, lift, ret, fault.
  destruct (maskSet t).
  - destruct (decide _); [|done].
    destruct (getParameters_loop _ _ _ _); [|done]. intros [= <- <-]. lia.
  - intros [= <- <-]. lia.
Qed.

Lemma counts_errorFunction params : counts 1 0 (errorFunction params).
Proof.
  intros t a t'. unfold errorFunction, bind, modify, gets.
  destruct (setParameters params _) as [[[] t1]| |] eqn:E; try done.
  apply counts_setParameters in E. simpl in E. intros [= <- <-]. lia.
Qed.

Lemma counts_calculateNumericalGradient i params :
  counts 2 0 (calculateNumericalGradient i params).
Proof.
  unfold calculateNumericalGradient.
  eapply counts_bind; [apply counts_gets|intros eps|..].
  eapply counts_bind; [by apply (counts_lift 0 0)|intros x|..].
  eapply counts_bind; [apply counts_errorFunction|intros fplus|..].
  eapply counts_bind; [by apply (counts_lift 0 0)|intros x'|..].
  eapply counts_bind; [apply counts_errorFunction|intros fminus|..].
  apply counts_ret.
  all: reflexivity.
Qed.

Lemma counts_numericalGradients_loop todo : forall i params g,
  counts (2 * Z.of_nat todo) 0 (numericalGradients_loop todo i params g).
Proof.
  induction todo as [|todo IH]; intros i params g; simpl.
  - apply counts_ret.
  - eapply counts_bind;
      [apply counts_calculateNumericalGradient|intros gi; apply IH|lia|lia].
Qed.

Lemma counts_numericalGradients params :
  counts (2 * Z.of_nat (length params)) 0 (numericalGradients params).
Proof.
  unfold numericalGradients.
  eapply counts_bind;
    [apply counts_setParameters
    |intros _; apply counts_numericalGradients_loop|lia|lia].
Qed.

Lemma counts_analytic params t g t' :
  analyticGradients t = true ->
  errorGradients params t = Ret (g, t') ->
  functionEvaluations t' = functionEvaluations t
  /\ gradientEvaluations t' = (gradientEvaluations t + 1)%Z.
Proof.
  intros E. unfold errorGradients, bind, gets, modify. rewrite E.
  destruct (setParameters params _) as [[[] t1]| |] eqn:Es; try done.
  apply counts_setParameters in Es. simpl in Es. intros [= <- <-]. lia.
Qed.

Lemma counts_numerical params t g t' :
  analyticGradients t = false ->
  errorGradients params t = Ret (g, t') ->
  functionEvaluations t'
  = (functionEvaluations t + 2 * Z.of_nat (length params))%Z
  /\ gradientEvaluations t' = gradientEvaluations t.
Proof.
  intros E. unfold errorGradients, bind, gets. rewrite E. intros Hr.
  apply counts_numericalGradients in Hr. lia.
Qed.

Lemma grows_setParameters p : grows (setParameters p).
Proof. apply (counts_grows 0 0); [lia..|apply counts_setParameters]. Qed.

Lemma grows_getParameters : grows (@getParameters M OM).
Proof. apply (counts_grows 0 0); [lia..|apply counts_getParameters]. Qed.

Lemma grows_errorFunction params : grows (errorFunction params).
Proof. apply (counts_grows 1 0); [lia..|apply counts_errorFunction]. Qed.

Lemma grows_calculateNumericalGradient i params :
  grows (calculateNumericalGradient i params).
Proof.
  apply (counts_grows 2 0); [lia..|apply counts_calculateNumericalGradient].
Qed.

Lemma grows_numericalGradients params : grows (numericalGradients params).
Proof.
  apply (counts_grows (2 * Z.of_nat (length params)) 0); [lia..|].
  apply counts_numericalGradients.
Qed.

Hint Resolve grows_setParameters grows_getParameters grows_errorFunction
  grows_calculateNumericalGradient grows_numericalGradients : grows.

Lemma grows_errorGradients params : grows (errorGradients params).
Proof. unfold errorGradients. grows. Qed.

Lemma grows_checkGradient_loop todo : forall i pos xOld gNew rows,
  grows (checkGradient_loop todo i pos xOld gNew rows).
Proof.
  induction todo as [|todo IH]; intros i pos xOld gNew rows; simpl.
  - grows.
  - apply grows_bind; [grows_step|intros masked].
    apply grows_bind; [grows|intros [[delta pos'] gNew']].
    apply grows_bind; [grows|intros gi]. apply IH.
Qed.

Lemma grows_checkGradient : grows (@checkGradient M OM).
Proof.
  unfold checkGradient. grows. apply grows_checkGradient_loop.
Qed.

Lemma grows_lineFunction param lambda direction :
  grows (lineFunction param lambda direction).
Proof. unfold lineFunction. grows. Qed.

Hint Resolve grows_errorGradients grows_checkGradient grows_lineFunction
  : grows.

Lemma grows_bracketMinimum_shrink fuel : forall a b c fa fb params direction,
  grows (bracketMinimum_shrink fuel a b c fa fb params direction).
Proof.
  induction fuel as [|fuel IH]; intros a b c fa fb params direction; simpl.
  - grows.
  - destruct (Num.ltb fa fb); grows.
Qed.

Lemma grows_bracketMinimum_step s params direction :
  grows (bracketMinimum_step s params direction).
Proof.
  unfold bracketMinimum_step. destruct s. cbv zeta. grows.
Qed.

Lemma grows_bracketMinimum_expand fuel : forall s params direction,
  grows (bracketMinimum_expand fuel s params direction).
Proof.
  induction fuel as [|fuel IH]; intros s params direction; simpl.
  - grows.
  - destruct (Num.ltb _ _); [|grows].
    apply grows_bind; [apply grows_bracketMinimum_step|].
    intros [s'|out]; [apply IH|grows].
Qed.

Lemma grows_bracketMinimum fuel a b fa params direction :
  grows (bracketMinimum fuel a b fa params direction).
Proof.
  unfold bracketMinimum.
  apply grows_bind; [grows|intros fb]. destruct (Num.ltb fa fb).
  - cbv zeta. apply grows_bind; [grows|intros fb'].
    apply grows_bind; [apply grows_bracketMinimum_shrink|intros bc]. grows.
  - cbv zeta. apply grows_bind; [grows|intros fc].
    apply grows_bind; [apply grows_bracketMinimum_expand|intros r]. grows.
Qed.

Lemma grows_lineMinimiser_step s params direction :
  grows (lineMinimiser_step s params direction).
Proof.
  unfold lineMinimiser_step. cbv zeta.
  apply grows_bind; [grows|intros tolerance].
  destruct (_ && _); [grows|].
  destruct (trial_step _ _ _) as [e d]. grows.
Qed.

Lemma grows_lineMinimiser_loop todo : forall s params direction,
  grows (lineMinimiser_loop todo s params direction).
Proof.
  induction todo as [|todo IH]; intros s params direction; simpl.
  - grows.
  - apply grows_bind; [apply grows_lineMinimiser_step|].
    intros [|s']; [grows|apply IH].
Qed.

Lemma grows_lineMinimiser fuel fa params direction :
  grows (lineMinimiser fuel fa params direction).
Proof.
  unfold lineMinimiser.
  apply grows_bind; [apply grows_bracketMinimum|intros [[br_min br_mid] br_max]].
  cbv zeta.
  apply grows_bind; [grows|intros fx].
  apply grows_bind; [grows|intros iterations].
  apply grows_bind; [apply grows_lineMinimiser_loop|intros s]. grows.
Qed.

Lemma grows_after {A} (c : Trainer M A) t t' :
  grows c -> after c t = Ret t' ->
  (functionEvaluations t <= functionEvaluations t')%Z
  /\ (gradientEvaluations t <= gradientEvaluations t')%Z.
Proof.
  intros Hc. unfold after. destruct (c t) as [[a t1]| |] eqn:E; try done.
  intros [= <-]. by apply (Hc _ _ _ E).
Qed.

(** C7, as the code has it.  No trainer operation lowers a counter.  Every
    call of [errorFunction] that returns has added exactly one to
    [functionEvaluations] and nothing to [gradientEvaluations].  A call of
    [errorGradients] that returns has added exactly one to
    [gradientEvaluations] (and nothing to [functionEvaluations]) when
    [analyticGradients] is on; when it is off, [gradientEvaluations] is
    unchanged and [functionEvaluations] has grown by two per parameter. *)
Theorem counters_monotone_and_exact :
  (forall op t t', run op t = Ret t' ->
     (functionEvaluations t <= functionEvaluations t')%Z
     /\ (gradientEvaluations t <= gradientEvaluations t')%Z)
  /\ (forall params t f t', errorFunction params t = Ret (f, t') ->
        functionEvaluations t' = (functionEvaluations t + 1)%Z
        /\ gradientEvaluations t' = gradientEvaluations t)
  /\ (forall params t g t', errorGradients params t = Ret (g, t') ->
        if analyticGradients t
        then gradientEvaluations t' = (gradientEvaluations t + 1)%Z
             /\ functionEvaluations t' = functionEvaluations t
        else gradientEvaluations t' = gradientEvaluations t
             /\ functionEvaluations t'
                = (functionEvaluations t + 2 * Z.of_nat (length params))%Z).
Proof.
  split; [|split].
  - intros op t t' Hr. destruct op; simpl in Hr;
      eapply grows_after; try exact Hr.
    + apply grows_setParameters.
    + apply grows_getParameters.
    + apply grows_errorFunction.
    + apply grows_errorGradients.
    + apply grows_numericalGradients.
    + apply grows_calculateNumericalGradient.
    + apply grows_checkGradient.
    + apply grows_lineFunction.
    + apply grows_bracketMinimum.
    + apply grows_lineMinimiser.
  - intros params t f t' Hr. apply counts_errorFunction in Hr. lia.
  - intros params t g t' Hr. destruct (analyticGradients t) eqn:E.
    + apply counts_analytic in Hr; [lia|done].
    + apply counts_numerical in Hr; [lia|done].
Qed.

End Counters.

(** C7 fails as stated: with [analyticGradients] off, a call of
    [errorGradients] returns a gradient and leaves [gradientEvaluations]
    as it was. *)
Lemma errorGradients_numerical_not_counted :
  let t := with_analyticGradients false (newModelTrainer [5%Q]) in
  exists g t',
    @errorGradients vec sumModel [5%Q] t = Ret (g, t')
    /\ gradientEvaluations t' = gradientEvaluations t
    /\ gradientEvaluations t' <> (gradientEvaluations t + 1)%Z.
Proof. do 2 eexists. split; [vm_compute; reflexivity|]. by split. Qed.

(** ** C9: the gradient check *)

Section GradientCheck.

Context {M : Type} {OM : Optimisable M}.

(** The rows of a masked-out index carry zero for both gradients. *)
Definition masked_rows_zero (mask : list bool) (rows : list GradientRow)
  : Prop :=
  forall r, r ∈ rows -> mask !! row_index r = Some false ->
    (row_delta r == 0)%Q /\ (row_analytic r == 0)%Q.

Lemma setParameters_mask p (t : ModelTrainer M) a t' :
  setParameters p t = Ret (a, t') ->
  maskSet t' = maskSet t /\ optimisationMask t' = optimisationMask t.
Proof.
  unfold setParameters, bind, gets, modify, lift, ret, fault.
  destruct (maskSet t) eqn:E.
  - destruct (setParameters_loop _ _ _ _ _); [|done].
    intros Hr. injection Hr as _ <-. by simpl.
  - intros Hr. injection Hr as _ <-. by simpl.
Qed.

Lemma errorFunction_mask p (t : ModelTrainer M) f t' :
  errorFunction p t = Ret (f, t') ->
  maskSet t' = maskSet t /\ optimisationMask t' = optimisationMask t.
Proof.
  unfold errorFunction, bind, modify, gets.
  destruct (setParameters p _) as [[[] t1]| |] eqn:Es; try done.
  apply setParameters_mask in Es. simpl in Es. by intros [= <- <-].
Qed.

Lemma calculateNumericalGradient_mask i p (t : ModelTrainer M) g t' :
  calculateNumericalGradient i p t = Ret (g, t') ->
  maskSet t' = maskSet t /\ optimisationMask t' = optimisationMask t.
Proof.
  unfold calculateNumericalGradient, bind, gets, lift, ret, fault.
  destruct (p !! i) as [x|]; [|done].
  destruct (errorFunction _ t) as [[fplus t1]| |] eqn:E1; try done.
  destruct (errorFunction _ t1) as [[fminus t2]| |] eqn:E2; try done.
  apply errorFunction_mask in E1, E2. intros [= <- <-].
  destruct E1 as [<- <-]. done.
Qed.

Lemma checkGradient_loop_masked_rows todo :
  forall i pos xOld gNew rows t out t',
    maskSet t = true ->
    masked_rows_zero (optimisationMask t) rows ->
    checkGradient_loop todo i pos xOld gNew rows t = Ret (out, t') ->
    masked_rows_zero (optimisationMask t) out.
Proof.
  induction todo as [|todo IH]; intros i pos xOld gNew rows t out t' E Hz;
    simpl.
  - by intros [= <- <-].
  - unfold bind at 1, gets at 1. rewrite E.
    unfold bind at 1. unfold bind at 1, gets at 1.
    unfold bind at 1, lift at 1.
    destruct (optimisationMask t !! i) as [[]|] eqn:Hi; simpl; try done.
    + unfold bind at 1.
      destruct (calculateNumericalGradient pos xOld t) as [[delta t1]| |]
        eqn:Hc; simpl; try done.
      unfold bind at 1, lift at 1.
      destruct (gNew !! i) as [gi|]; simpl; [|done].
      intros Hr.
      destruct (calculateNumericalGradient_mask _ _ _ _ _ Hc) as [Hs Hm].
      rewrite E in Hs.
      rewrite <- Hm. eapply IH; [done| |exact Hr].
      rewrite Hm. intros r Hin Hf. apply elem_of_app in Hin as [Hin|Hin].
      * by apply Hz.
      * apply list_elem_of_singleton in Hin as ->. simpl in Hf. congruence.
    + destruct (decide (i < length gNew)) as [Hlt|]; simpl; [|done].
      unfold bind at 1, lift at 1.
      rewrite list_lookup_insert_eq by done. simpl.
      intros Hr. eapply IH; [done| |exact Hr].
      intros r Hin Hf. apply elem_of_app in Hin as [Hin|Hin].
      * by apply Hz.
      * apply list_elem_of_singleton in Hin as ->. by simpl.
Qed.

(** The part of C9 that the code meets: in the table that [checkGradient]
    returns under a mask, both gradients of every masked-out index are
    zero. *)
Lemma checkGradient_masked_rows t rows t' :
  maskSet t = true ->
  checkGradient t = Ret (rows, t') ->
  masked_rows_zero (optimisationMask t) rows.
Proof.
  intros E. unfold checkGradient. unfold bind at 1.
  destruct (getParameters t) as [[xOld t1]| |] eqn:Hg; try done.
  apply getParameters_pure in Hg as ->.
  unfold bind at 1, gets at 1. intros Hr.
  eapply checkGradient_loop_masked_rows; [done| |exact Hr].
  intros r Hin. by apply elem_of_nil in Hin.
Qed.

End GradientCheck.

(** C9 at a concrete trainer: a model with the single parameter [0], no
    mask, the constructor's [epsilon].  [checkGradient] returns its table
    and leaves the model at the last point it evaluated,
    [0 - epsilon], and not at [0]. *)
Theorem checkGradient_leaves_model_perturbed :
  let t := newModelTrainer [0%Q] in
  exists rows t',
    @checkGradient vec sumModel t = Ret (rows, t')
    /\ @getParametersVector vec sumModel (model t') = [(-1 # 1000000)%Q]
    /\ @getParametersVector vec sumModel (model t')
       <> @getParametersVector vec sumModel (model t).
Proof.
  do 2 eexists. split; [vm_compute; reflexivity|]. split; [reflexivity|done].
Qed.

(** ** C2: the stopping test of the line minimiser *)

(** The tolerances are training options, set through member functions
    declared in ModelTrainer.h. *)
Definition with_parameterTolerance {M} (tol : Q) (t : ModelTrainer M)
  : ModelTrainer M :=
  mkModelTrainer (model t) (display t) (errorTolerance t) tol
    (gradientCheck t) (analyticGradients t)
    (functionEvaluations t) (gradientEvaluations t) (functionValue t)
    (lineMinimiserIterations t) (lineMinimiserParameterTolerance t)
    (maskSet t) (optimisationMask t) (epsilon t).

Section StoppingTest.

Context {M : Type} {OM : Optimisable M} {K : Constants}.

Local Open Scope Q_scope.

(** The test of the source, on the variables of an iteration and a
    tolerance. *)
Definition stops (tolerance : Q) (s : linesearch) : Prop :=
  let xm := (1 # 2) * (ls_br_min s + ls_br_max s) in
  Qabs (ls_x s - xm) <= tolerance
  /\ ls_br_max s - ls_br_min s < 4 * tolerance.

Lemma stops_test tolerance s :
  Num.leb (Num.abs (ls_x s - (1 # 2) * (ls_br_min s + ls_br_max s))) tolerance
  && Num.ltb (ls_br_max s - ls_br_min s) (4 * tolerance) = true
  <-> stops tolerance s.
Proof.
  unfold stops, Num.abs. rewrite andb_true_iff, Num.leb_true, Num.ltb_true.
  reflexivity.
Qed.

(** C2, as the code has it.  An iteration of [lineMinimiser] executes
    [functionValue = fx; return;] exactly when [|x - xm| <=
    lineMinimiserParameterTolerance] and [br_max - br_min < 4 *
    lineMinimiserParameterTolerance], with [xm] the midpoint of the
    bracket: the tolerance is the trainer's line-search parameter
    tolerance.  The loop then ends with the variables it had and reports
    [fx] in [functionValue]. *)
Theorem lineMinimiser_stops_exactly_when
    (s : linesearch) (params direction : vec) (t : ModelTrainer M) :
  (stops (lineMinimiserParameterTolerance t) s ->
   lineMinimiser_step s params direction t
   = Ret (Converged, with_functionValue (ls_fx s) t)
   /\ forall todo,
       lineMinimiser_loop (S todo) s params direction t
       = Ret (s, with_functionValue (ls_fx s) t))
  /\ (~ stops (lineMinimiserParameterTolerance t) s ->
      forall t', lineMinimiser_step s params direction t
                 <> Ret (Converged, t')).
Proof.
  split.
  - intros Hs. apply stops_test in Hs.
    assert (lineMinimiser_step s params direction t
            = Ret (Converged, with_functionValue (ls_fx s) t)) as Hstep.
    { unfold lineMinimiser_step. cbv zeta. unfold bind at 1, gets at 1.
      by rewrite Hs. }
    split; [done|]. intros todo. simpl. unfold bind at 1. by rewrite Hstep.
  - intros Hs t' Hr. apply Hs. apply stops_test.
    unfold lineMinimiser_step in Hr. cbv zeta in Hr.
    unfold bind at 1, gets at 1 in Hr.
    destruct (_ && _); [done|].
    destruct (trial_step _ _ _) as [e d].
    unfold bind in Hr. destruct (lineFunction _ _ _ _) as [[fu t1]| |]; done.
Qed.

End StoppingTest.

(** C2 fails as stated, with the trainer's parameter tolerance in the
    test: a trainer whose [parameterTolerance] is [1] and whose
    [lineMinimiserParameterTolerance] is the constructor's [1e-4], with
    [x] at the midpoint of the bracket [[0, 1]].  The test of the claim
    holds, and the iteration goes on. *)
Lemma lineMinimiser_ignores_parameterTolerance :
  let t := with_parameterTolerance 1 (newModelTrainer [0%Q]) in
  let s := mkLinesearch 0 1 (1 # 2) (1 # 2) (1 # 2) 0 0 (1 # 2) (1 # 2) (1 # 2) in
  stops (parameterTolerance t) s
  /\ exists s' t',
      @lineMinimiser_step vec sumModel netlab s [0%Q] [1%Q] t
      = Ret (Continue s', t').
Proof.
  split.
  - split; vm_compute; [discriminate|reflexivity].
  - do 2 eexists. vm_compute. reflexivity.
Qed.

(** ** bracketMinimum: fuel *)

Section Fuel.

Context {M : Type} {OM : Optimisable M} {K : Constants}.

Implicit Types (t : ModelTrainer M).

(** A loop that has returned within its fuel returns the same with more. *)
Lemma bracketMinimum_shrink_more fuel :
  forall fuel' a b c fa fb params direction t r,
    fuel <= fuel' ->
    bracketMinimum_shrink fuel a b c fa fb params direction t = Ret r ->
    bracketMinimum_shrink fuel' a b c fa fb params direction t = Ret r.
Proof.
  induction fuel as [|fuel IH];
    intros [|fuel'] a b c fa fb params direction t r Hle; simpl;
    destruct (Num.ltb fa fb); try done; try lia.
  unfold bind. destruct (lineFunction _ _ _ _) as [[fb' t1]| |]; try done.
  apply IH. lia.
Qed.

Lemma bracketMinimum_expand_more fuel :
  forall fuel' s params direction t r,
    fuel <= fuel' ->
    bracketMinimum_expand fuel s params direction t = Ret r ->
    bracketMinimum_expand fuel' s params direction t = Ret r.
Proof.
  induction fuel as [|fuel IH];
    intros [|fuel'] s params direction t r Hle; simpl;
    destruct (Num.ltb _ _); try done; try lia.
  unfold bind.
  destruct (bracketMinimum_step _ _ _ _) as [[[s'|out] t1]| |]; try done.
  apply IH. lia.
Qed.

Lemma bracketMinimum_more fuel fuel' a b fa params direction t r :
  fuel <= fuel' ->
  bracketMinimum fuel a b fa params direction t = Ret r ->
  bracketMinimum fuel' a b fa params direction t = Ret r.
Proof.
  intros Hle. unfold bracketMinimum, bind. cbv zeta.
  destruct (lineFunction params b direction t) as [[fb t1]| |]; try done.
  destruct (Num.ltb fa fb).
  - destruct (lineFunction _ _ _ t1) as [[fb' t2]| |]; try done.
    destruct (bracketMinimum_shrink fuel _ _ _ _ _ _ _ _) as [[bc t3]| |]
      eqn:E; try done.
    by rewrite (bracketMinimum_shrink_more _ _ _ _ _ _ _ _ _ _ _ Hle E).
  - destruct (lineFunction _ _ _ t1) as [[fc t2]| |]; try done.
    destruct (bracketMinimum_expand fuel _ _ _ _) as [[r' t3]| |]
      eqn:E; try done.
    by rewrite (bracketMinimum_expand_more _ _ _ _ _ _ _ Hle E).
Qed.

End Fuel.

(** ** Line functions for the bracketing claims *)

Local Open Scope Q_scope.

(** A strictly unimodal function: strictly decreasing up to its minimiser
    [m] and strictly increasing from it. *)
Definition unimodal_at (f : Q -> Q) (m : Q) : Prop :=
  (forall x y, x < y -> y <= m -> f y < f x)
  /\ (forall x y, m <= x -> x < y -> f x < f y).

Definition strictly_unimodal (f : Q -> Q) : Prop := exists m, unimodal_at f m.

(** What C1 asks of the output of [bracketMinimum]. *)
Definition valid_bracket (f : Q -> Q) (br : bracket) : Prop :=
  let '(br_min, br_mid, br_max) := br in
  br_min < br_mid /\ br_mid < br_max
  /\ f br_mid <= f br_min /\ f br_mid <= f br_max.

(** A model with one parameter whose objective is a given function of it;
    along the direction [[1]] from the point [[0]] the line function is
    that function. *)
Definition lineModel (f : Q -> Q) : Optimisable vec :=
  vecModel (fun p => f (nth 0 p 0)) (fun p => map (fun _ => 0) p).

(** A parabola on the left of its minimum at [3], a gentle slope on the
    right. *)
Definition kink (x : Q) : Q :=
  if Num.ltb x 3 then (3 - x) * (3 - x) else (1 # 10) * (x - 3).


Lemma kink_unimodal : unimodal_at kink 3.
Proof.
  split; intros x y Hxy Hy; unfold kink.
  - destruct (Num.ltb_spec x 3), (Num.ltb_spec y 3); try lra.
    + assert (0 < (y - x) * (6 - x - y)) as Hp
        by (apply Qmult_lt_0_compat; lra).
      assert ((3 - x) * (3 - x)
              == (3 - y) * (3 - y) + (y - x) * (6 - x - y)) as -> by ring.
      revert Hp. generalize ((y - x) * (6 - x - y)), ((3 - y) * (3 - y)).
      intros; lra.
    + assert (0 < (3 - x) * (3 - x)) as Hp
        by (apply Qmult_lt_0_compat; lra).
      revert Hp. generalize ((3 - x) * (3 - x)). intros; lra.
  - destruct (Num.ltb_spec x 3), (Num.ltb_spec y 3); lra.
Qed.


Lemma kink_proper x y : x == y -> kink x == kink y.
Proof.
  intros E. unfold kink.
  destruct (Num.ltb_spec x 3), (Num.ltb_spec y 3); try lra; by rewrite E.
Qed.


Lemma lineValue_lineModel f (t : ModelTrainer vec) (lambda : Q) :
  maskSet t = false ->
  @lineValue vec (lineModel f) t [0] [1] lambda = f (0 + lambda * 1).
Proof.
  intros E. unfold lineValue, objective_at, installed. by rewrite E.
Qed.

(** ** C1: the output of bracketMinimum *)

(** C1 at a concrete line function.  [kink] is strictly unimodal and is the
    line function of the trainer below along [[1]] from [[0]], with value
    [9] at the base point [0].  [bracketMinimum], started as
    [lineMinimiser] starts it (base point [0], first step [1]), returns
    after two iterations of the expansion loop, for whatever fuel is left
    over, and the returned triple [(3, 3.3158.., 3.618..)] is ordered but
    is not a valid bracket: the value at [br_mid] is greater than the value
    at [br_min]. *)
Theorem bracketMinimum_returns_invalid_bracket :
  let t := newModelTrainer [0] in
  strictly_unimodal kink
  /\ (forall lambda,
         @lineValue vec (lineModel kink) t [0] [1] lambda == kink lambda)
  /\ kink 0 == 9
  /\ forall k : nat, exists br_min br_mid br_max t',
       @bracketMinimum vec (lineModel kink) netlab (2 + k) 0 1 9 [0] [1] t
       = Ret ((br_min, br_mid, br_max), t')
       /\ br_min == 3
       /\ br_min < br_mid /\ br_mid < br_max
       /\ kink br_min < kink br_mid
       /\ ~ valid_bracket kink (br_min, br_mid, br_max).
Proof.
  intros t. split; [exists 3; apply kink_unimodal|].
  split.
  { intros lambda. rewrite lineValue_lineModel by done.
    apply kink_proper. ring. }
  split; [reflexivity|].
  intros k.
  destruct (@bracketMinimum vec (lineModel kink) netlab 2 0 1 9 [0] [1] t)
    as [[[[br_min br_mid] br_max] t']| |] eqn:E;
    [|vm_compute in E; discriminate..].
  exists br_min, br_mid, br_max, t'.
  split.
  { eapply bracketMinimum_more; [|exact E]. lia. }
  vm_compute in E. injection E as <- <- <- _.
  repeat split; try (vm_compute; reflexivity).
  unfold valid_bracket. intros (_ & _ & Hle & _).
  revert Hle. vm_compute. intros H. by apply H.
Qed.

(** ** C8: the loops of bracketMinimum *)

Section Golden.

Context {K : Constants}.

(** The next trial point of the shrinking branch. *)
Definition golden (a c : Q) : Q := a + (c - a) / PHI.

Lemma golden_above a c : 0 < PHI -> a < c -> a < golden a c.
Proof.
  intros HP Hac. unfold golden.
  assert (0 < (c - a) / PHI).
  { apply Qlt_shift_div_l; lra. }
  lra.
Qed.

Lemma golden_below a c : 1 < PHI -> a < c -> golden a c < c.
Proof.
  intros HP Hac. unfold golden. assert ((c - a) / PHI < c - a); [|lra].
  apply Qlt_shift_div_r; [lra|].
  assert (0 < (c - a) * (PHI - 1)) as Hp by (apply Qmult_lt_0_compat; lra).
  assert ((c - a) * PHI == (c - a) + (c - a) * (PHI - 1)) as -> by ring.
  revert Hp. generalize ((c - a) * (PHI - 1)). intros; lra.
Qed.



End Golden.

Section Shrinking.

Context {M : Type} {OM : Optimisable M} {SP : StoredParameters M}
  {K : Constants}.

Variables (t : ModelTrainer M) (params direction : vec).

Hypothesis Hfit : mask_fits t.
Hypothesis Hcov : covers t params.
Hypothesis Hlen : length params = length direction.

Let f : Q -> Q := lineValue t params direction.

Lemma lineFunction_bump n lambda :
  lineFunction params lambda direction (bump n t)
  = Ret (f lambda, bump (n + 1) t).
Proof.
  rewrite lineFunction_ok; [|done..]. by rewrite bump_bump.
Qed.


(** What the shrinking loop returns: a point [b'] no worse than the base
    point, strictly between the base point and a point [c'] that is
    worse. *)
Lemma shrink_returns a fa :
  1 < PHI ->
  forall fuel b c n b' c' t',
    a < b -> b < c -> fa < f c ->
    bracketMinimum_shrink fuel a b c fa (f b) params direction (bump n t)
    = Ret ((b', c'), t') ->
    a < b' /\ b' < c' /\ f b' <= fa /\ fa < f c'.
Proof.
  intros HP. induction fuel as [|fuel IH];
    intros b c n b' c' t' Hab Hbc Hc; simpl;
    destruct (Num.ltb_spec fa (f b)) as [Hlt|Hge];
    try (unfold nofuel; done); unfold ret.
  - intros Hr. simplify_eq. repeat split; auto. lra.
  - unfold bind. rewrite lineFunction_bump. apply IH; auto.
    + apply golden_above; lra.
    + by apply golden_below.
  - intros Hr. simplify_eq. repeat split; auto. lra.
Qed.

(** The part of C1 that the code meets in full: through its shrinking
    branch [bracketMinimum] returns valid brackets only. *)
Lemma shrinking_branch_valid fuel a b br t' :
  1 < PHI -> a < b -> f a < f b ->
  bracketMinimum fuel a b (f a) params direction t = Ret (br, t') ->
  valid_bracket f br.
Proof.
  intros HP Hab Hworse. unfold bracketMinimum. unfold bind at 1.
  rewrite lineFunction_ok by done. fold f.
  rewrite (proj2 (Num.ltb_true _ _) Hworse). cbv zeta.
  unfold bind at 1. rewrite (lineFunction_bump 1). unfold bind at 1.
  destruct (bracketMinimum_shrink _ _ _ _ _ _ _ _ _) as [[[b' c'] t1]| |]
    eqn:E; try done.
  intros [= <- _].
  apply (shrink_returns a (f a) HP) in E as (Hab' & Hbc' & Hb' & Hc');
    [| | |done].
  - unfold bracketMinimum_finish. simpl.
    rewrite (proj2 (Num.ltb_true _ _)) by lra.
    unfold valid_bracket. repeat split; auto. lra.
  - apply golden_above; lra.
  - by apply golden_below.
Qed.


End Shrinking.

(** ** C1 under other values of the constants *)

(** The run of [bracketMinimum] on [kink] does not depend on how the header
    rounds the golden ratio or on the size of the floor: [true] when the
    call returns a triple whose middle value is greater than the value at
    [br_min]. *)
Definition kink_bracket_invalid (phi tiny : Q) : bool :=
  let K := {| PHI := phi; CPHI := 1 - 1 / phi; TOL := 1 # 67108864;
              TINY := tiny |} in
  match @bracketMinimum vec (lineModel kink) K 2 0 1 9 [0] [1]
          (newModelTrainer [0]) with
  | Ret ((br_min, br_mid, br_max), _) =>
      Num.ltb (kink br_min) (kink br_mid)
      && Num.ltb br_min br_mid && Num.ltb br_mid br_max
  | Fault | NoFuel => false
  end.

Lemma kink_bracket_invalid_for_other_constants :
  forallb (fun phi => kink_bracket_invalid phi (1 # 10000000000)
                      && kink_bracket_invalid phi (1 # 100000000000000000000))
    [1618 # 1000; 1618034 # 1000000; 16180339 # 10000000;
     161803399 # 100000000; 16180339887 # 10000000000;
     1618033988749895 # 1000000000000000; 8 # 5; 17 # 10]
  = true.
Proof. vm_compute. reflexivity. Qed.

(** ** bracketMinimum: points and values in step *)

Section Expansion.

Context {M : Type} {OM : Optimisable M} {SP : StoredParameters M}
  {K : Constants}.

Variables (t : ModelTrainer M) (params direction : vec).

Hypothesis Hfit : mask_fits t.
Hypothesis Hcov : covers t params.
Hypothesis Hlen : length params = length direction.

Let f : Q -> Q := lineValue t params direction.

(** The state the expansion loop is meant to be in: [fa], [fb] and [fc] are
    the values at [a], [b] and [c], the points are in order, the value at
    [b] is no greater than the value at [a], and once [bracket_found] is
    raised the loop test fails. *)
Definition in_step (s : expansion) : Prop :=
  ex_fa s = f (ex_a s) /\ ex_fb s = f (ex_b s) /\ ex_fc s = f (ex_c s)
  /\ ex_a s < ex_b s /\ ex_b s < ex_c s
  /\ ex_fb s <= ex_fa s
  /\ (ex_bracket_found s = true -> ex_fb s <= ex_fc s).

(** The iteration takes the branch "interpolant between [c] and [ulimit],
    with a value below [fc]": the one that moves [b] and [c] along and
    leaves [fb] and [fc] behind. *)
Definition moves_along (s : expansion) : Prop :=
  let u := interpolate s in
  let ulimit := ex_b s + max_step * (ex_c s - ex_b s) in
  Num.xpos (Num.xmul (Num.xrsub (ex_b s) u) (Num.xsub u (ex_c s))) = false
  /\ Num.xpos (Num.xmul (Num.xrsub (ex_c s) u) (Num.xsub u ulimit)) = true
  /\ f (Num.xvalue u) < ex_fc s.

Lemma expansion_evaluates n lambda :
  lineFunction params lambda direction (bump n t)
  = Ret (f lambda, bump (n + 1) t).
Proof. by apply lineFunction_bump. Qed.

Lemma product_positive x y :
  0 < x * y -> (0 < x /\ 0 < y) \/ (x < 0 /\ y < 0).
Proof.
  intros H.
  destruct (Qlt_le_dec 0 x) as [Hx|Hx], (Qlt_le_dec 0 y) as [Hy|Hy].
  - by left.
  - assert (0 <= x * - y) by (apply Qmult_le_0_compat; lra).
    assert (x * - y == - (x * y)) as E by ring. rewrite E in *. lra.
  - assert (0 <= - x * y) by (apply Qmult_le_0_compat; lra).
    assert (- x * y == - (x * y)) as E by ring. rewrite E in *. lra.
  - right. split.
    + destruct (Qeq_dec x 0) as [E|]; [|lra]. rewrite E in H. lra.
    + destruct (Qeq_dec y 0) as [E|]; [|lra]. rewrite E in H. lra.
Qed.

Lemma step_ahead b c k : 0 < k -> b < c -> c < c + k * (c - b).
Proof.
  intros Hk Hbc. assert (0 < k * (c - b)) by (apply Qmult_lt_0_compat; lra).
  lra.
Qed.

Lemma span_grows b c k : 1 <= k -> b < c -> c - b <= c + k * (c - b) - c.
Proof.
  intros Hk Hbc.
  assert (0 <= (k - 1) * (c - b)) as Hp by (apply Qmult_le_0_compat; lra).
  assert (k * (c - b) == (c - b) + (k - 1) * (c - b)) as E by ring.
  assert (c + k * (c - b) - c == k * (c - b)) as -> by ring.
  rewrite E. revert Hp. generalize ((k - 1) * (c - b)). intros; lra.
Qed.

(** The next state starts where this one ended, and if the loop is to go
    on from it, its outer interval is no shorter. *)
Definition advances (s s' : expansion) : Prop :=
  ex_b s' = ex_c s
  /\ (ex_fc s' < ex_fb s' -> ex_c s - ex_b s <= ex_c s' - ex_b s').

(** An iteration that starts in step and does not take the branch that
    moves the bracket along either returns a valid bracket or ends in
    step, further out. *)
Lemma step_keeps_in_step m s n r t' :
  1 < PHI -> unimodal_at f m ->
  in_step s -> ex_fc s < ex_fb s -> ~ moves_along s ->
  bracketMinimum_step s params direction (bump n t) = Ret (r, t') ->
  match r with
  | inl s' => in_step s' /\ advances s s'
  | inr br => valid_bracket f br
  end.
Proof.
  intros HP [Hdec Hinc] Hin Hloop Hmove.
  unfold bracketMinimum_step, moves_along, in_step, advances in *.
  remember (interpolate s) as u eqn:Eu. clear Eu.
  destruct s as [a b c fa fb fc fu bf].
  cbn [ex_a ex_b ex_c ex_fa ex_fb ex_fc ex_bracket_found] in *.
  destruct Hin as (-> & -> & -> & Hab & Hbc & Hfa & Hbf).
  assert (bf = false) as ->
    by (destruct bf; [specialize (Hbf eq_refl); lra|done]).
  cbv beta zeta in *.
  set (ulimit := b + max_step * (c - b)) in *.
  assert (c < ulimit) as Hlim.
  { unfold ulimit, max_step. lra. }
  destruct (Num.xpos (Num.xmul (Num.xrsub b u) (Num.xsub u c))) eqn:T1.
  - destruct u as [uq| | |]; try discriminate T1.
    cbn [Num.xpos Num.xmul Num.xrsub Num.xsub Num.xplus Num.xopp Num.xvalue]
      in *.
    apply Num.ltb_true, product_positive in T1.
    assert (b < uq /\ uq < c) as [Hbu Huc] by (destruct T1; lra).
    unfold bind at 1. rewrite expansion_evaluates.
    destruct (Num.ltb_spec (f uq) (f c)) as [Hfu|Hfu].
    { intros [= <- _]. unfold valid_bracket. repeat split; auto; lra. }
    destruct (Num.ltb_spec (f b) (f uq)) as [Hfb|Hfb].
    { exfalso. destruct (Qlt_le_dec m uq) as [Hm|Hm].
      - specialize (Hinc uq c). lra.
      - specialize (Hdec b uq). lra. }
    unfold bind at 1. rewrite expansion_evaluates.
    intros [= <- _].
    cbn [ex_a ex_b ex_c ex_fa ex_fb ex_fc ex_bracket_found].
    repeat split; auto; try lra; [apply step_ahead; lra|].
    intros _. apply span_grows; lra.
  - destruct (Num.xpos (Num.xmul (Num.xrsub c u) (Num.xsub u ulimit))) eqn:T2.
    + destruct u as [uq| | |]; try discriminate T2.
      cbn [Num.xpos Num.xmul Num.xrsub Num.xsub Num.xplus Num.xopp Num.xvalue]
        in *.
      pose proof T2 as T2'.
      apply Num.ltb_true, product_positive in T2'.
      assert (c < uq) as Hcu by (destruct T2'; lra).
      unfold bind at 1. rewrite expansion_evaluates.
      destruct (Num.ltb_spec (f uq) (f c)) as [Hfu|Hfu].
      { exfalso. apply Hmove. by repeat split. }
      unfold ret. intros [= <- _].
      cbn [ex_a ex_b ex_c ex_fa ex_fb ex_fc ex_bracket_found].
      repeat split; auto; lra.
    + destruct (Num.xnonneg _).
      * unfold bind at 1. rewrite expansion_evaluates.
        intros [= <- _].
        cbn [ex_a ex_b ex_c ex_fa ex_fb ex_fc ex_bracket_found].
        repeat split; auto; try lra.
        intros _. unfold ulimit, max_step. lra.
      * unfold bind at 1. rewrite expansion_evaluates.
        intros [= <- _].
        cbn [ex_a ex_b ex_c ex_fa ex_fb ex_fc ex_bracket_found].
        repeat split; auto; try lra; [apply step_ahead; lra|].
        intros _. apply span_grows; lra.
Qed.

(** An iteration never stops the call: it returns or goes on. *)
Lemma step_total s n :
  exists r n', bracketMinimum_step s params direction (bump n t)
               = Ret (r, bump n' t).
Proof.
  unfold bracketMinimum_step.
  remember (interpolate s) as u eqn:Eu. clear Eu.
  destruct s as [a b c fa fb fc fu bf]. cbv beta zeta.
  repeat first
    [ progress (unfold bind at 1; rewrite expansion_evaluates)
    | progress unfold ret
    | match goal with
      | |- context [if ?x then _ else _] => destruct x
      end ];
    eauto.
Qed.

(** The states the loop goes through from a given one. *)
Inductive visits : expansion -> expansion -> Prop :=
  | visits_here s : visits s s
  | visits_next s s1 s' n t1 :
      ex_fc s < ex_fb s ->
      bracketMinimum_step s params direction (bump n t) = Ret (inl s1, t1) ->
      visits s1 s' ->
      visits s s'.

Lemma moves_along_dec s : moves_along s \/ ~ moves_along s.
Proof.
  unfold moves_along. cbv zeta.
  destruct (Num.xpos _); [right; intros (? & _); done|].
  destruct (Num.xpos _); [|right; intros (_ & ? & _); done].
  destruct (Qlt_le_dec (f (Num.xvalue (interpolate s))) (ex_fc s)).
  - by left.
  - right. intros (_ & _ & ?). lra.
Qed.

(** A good end of the loop: a valid bracket from a [return] inside it, or
    a state in step that fails the loop test. *)
Definition ends_well (r : expansion + bracket) : Prop :=
  match r with
  | inl s' => in_step s' /\ ex_fb s' <= ex_fc s'
  | inr br => valid_bracket f br
  end.

(** From a state in step whose point [b] is within [N] outer intervals of
    the minimiser, the loop comes to a good end within [N] iterations,
    unless it comes to an iteration that moves the bracket along. *)
Lemma expand_exits m w :
  1 < PHI -> unimodal_at f m -> 0 < w ->
  forall (N : nat) s fuel n,
    in_step s -> (N <= fuel)%nat ->
    w <= ex_c s - ex_b s ->
    m - ex_b s <= inject_Z (Z.of_nat N) * w ->
    (exists r n',
        bracketMinimum_expand fuel s params direction (bump n t)
        = Ret (r, bump n' t)
        /\ ends_well r)
    \/ (exists s', visits s s' /\ moves_along s').
Proof.
  intros HP Huni Hw.
  assert (forall s fuel n, ex_fb s <= ex_fc s ->
            bracketMinimum_expand fuel s params direction (bump n t)
            = Ret (inl s, bump n t)) as Hout.
  { intros s fuel n Hexit. apply Num.ltb_false in Hexit.
    destruct fuel; simpl; by rewrite Hexit. }
  induction N as [|N IH]; intros s fuel n Hin Hfuel Hspan Hnear;
    destruct (Qlt_le_dec (ex_fc s) (ex_fb s)) as [Hloop|Hexit];
    try (left; exists (inl s), n; split; [by apply Hout|by split]).
  - exfalso. destruct Hin as (_ & Hb & Hc & _ & Hbc & _).
    change (inject_Z (Z.of_nat 0)) with 0 in Hnear.
    destruct Huni as [_ Hinc]. specialize (Hinc (ex_b s) (ex_c s)).
    fold f in Hinc. rewrite <- Hb, <- Hc in Hinc. lra.
  - destruct fuel as [|fuel]; [lia|].
    destruct (moves_along_dec s) as [Hmove|Hmove].
    { right. exists s. split; [constructor|done]. }
    destruct (step_total s n) as (r & n1 & Hstep).
    pose proof (step_keeps_in_step m s n r _ HP Huni Hin Hloop Hmove Hstep)
      as Hr.
    assert (forall r' n',
              match r with
              | inl s1 =>
                  bracketMinimum_expand fuel s1 params direction (bump n1 t)
              | inr out => Ret (inr out, bump n1 t)
              end = Ret (r', bump n' t) ->
              bracketMinimum_expand (S fuel) s params direction (bump n t)
              = Ret (r', bump n' t)) as Hgo.
    { intros r' n' E. simpl.
      rewrite (proj2 (Num.ltb_true _ _) Hloop). unfold bind. rewrite Hstep.
      by destruct r. }
    destruct r as [s1|out]; [|left; exists (inr out); eauto].
    destruct Hr as (Hin1 & Hb1 & Hgrow).
    destruct (Qlt_le_dec (ex_fc s1) (ex_fb s1)) as [Hloop1|Hexit1].
    2:{ left. exists (inl s1). eexists. split; [apply Hgo; by apply Hout|].
        by split. }
    specialize (Hgrow Hloop1).
    destruct (IH s1 fuel n1) as [(r' & n' & Hr' & Hw')|(s' & Hv & Hm)];
      [done|lia|lra| |left; eauto|].
    + rewrite Hb1. rewrite Nat2Z.inj_succ in Hnear. unfold Z.succ in Hnear.
      rewrite inject_Z_plus in Hnear. change (inject_Z 1) with 1 in Hnear.
      revert Hnear. generalize (inject_Z (Z.of_nat N)). intros q Hnear.
      assert ((q + 1) * w == q * w + w) as E by ring. rewrite E in Hnear.
      revert Hnear. generalize (q * w). intros; lra.
    + right. exists s'. split; [|done]. by eapply visits_next.
Qed.

(** The loop exit from a state in step gives a valid bracket. *)
Lemma exit_in_step s :
  in_step s -> ex_fb s <= ex_fc s ->
  valid_bracket f (bracketMinimum_finish (ex_a s) (ex_b s) (ex_c s)).
Proof.
  intros (Ha & Hb & Hc & Hab & Hbc & Hfa & _) Hexit.
  unfold bracketMinimum_finish.
  rewrite (proj2 (Num.ltb_true _ _)) by lra.
  unfold valid_bracket. rewrite <- Ha, <- Hb, <- Hc. by repeat split.
Qed.

(** The first state of the expansion branch is in step. *)
Lemma first_in_step a b :
  1 < PHI -> a < b -> f b <= f a ->
  in_step (mkExpansion a b (b + PHI * (b - a)) (f a) (f b)
             (f (b + PHI * (b - a))) 0 false).
Proof.
  intros HP Hab Hfb. unfold in_step. simpl.
  repeat split; auto; try done. apply step_ahead; lra.
Qed.

Lemma archimedean q w :
  0 < w -> exists N : nat, q <= inject_Z (Z.of_nat N) * w.
Proof.
  intros Hw. exists (Z.to_nat (Qceiling (q / w))).
  assert (q == q / w * w) as E by (field; lra).
  rewrite E at 1. apply Qmult_le_compat_r; [|lra].
  apply Qle_trans with (inject_Z (Qceiling (q / w))); [apply Qle_ceiling|].
  rewrite <- Zle_Qle. lia.
Qed.

(** The expansion branch of [bracketMinimum]: the call returns a valid
    bracket within a bound on the fuel, unless the loop comes to an
    iteration that moves the bracket along. *)
Lemma expanding_branch m a b :
  1 < PHI -> unimodal_at f m -> a < b -> f b <= f a ->
  exists N : nat, forall fuel, (N <= fuel)%nat ->
    (exists br k,
        bracketMinimum fuel a b (f a) params direction t
        = Ret (br, bump k t)
        /\ valid_bracket f br)
    \/ (exists s',
           visits (mkExpansion a b (b + PHI * (b - a)) (f a) (f b)
                     (f (b + PHI * (b - a))) 0 false) s'
           /\ moves_along s').
Proof.
  intros HP Huni Hab Hfb.
  set (s0 := mkExpansion a b (b + PHI * (b - a)) (f a) (f b)
               (f (b + PHI * (b - a))) 0 false).
  assert (in_step s0) as Hin by by apply first_in_step.
  assert (0 < PHI * (b - a)) as Hw by (apply Qmult_lt_0_compat; lra).
  destruct (archimedean (m - b) (PHI * (b - a)) Hw) as [N HN].
  exists N. intros fuel Hfuel.
  destruct (expand_exits m (PHI * (b - a)) HP Huni Hw N s0 fuel 2 Hin Hfuel)
    as [(r & n' & Hr & Hend)|Hmoved]; [simpl; lra|exact HN| |by right].
  left. unfold bracketMinimum. unfold bind at 1.
  rewrite lineFunction_ok by done. fold f.
  rewrite (proj2 (Num.ltb_false _ _) Hfb). cbv zeta.
  unfold bind at 1. rewrite (expansion_evaluates 1).
  unfold bind at 1. change (1 + 1)%Z with 2%Z. fold s0. rewrite Hr.
  destruct r as [s'|br]; unfold ret; do 2 eexists; (split; [reflexivity|]).
  - destruct Hend. by apply exit_in_step.
  - exact Hend.
Qed.

End Expansion.

(** ** The expansion loop comes to an end *)

Section ExpansionEnds.

Context {M : Type} {OM : Optimisable M} {SP : StoredParameters M}
  {K : Constants}.

Variables (t : ModelTrainer M) (params direction : vec).

Hypothesis Hfit : mask_fits t.
Hypothesis Hcov : covers t params.
Hypothesis Hlen : length params = length direction.

Let f : Q -> Q := lineValue t params direction.

(** The minimiser, and bounds on the values the loop holds: no value of the
    function is below [bot], and [fa] starts at or below [top]. *)
Variables (m top bot : Q).

Hypothesis HP : 1 < PHI.
Hypothesis HT : 0 < TINY.
Hypothesis Huni : unimodal_at f m.
Hypothesis Hbot : forall x, bot <= f x.
Hypothesis Htop : bot <= top.
















End ExpansionEnds.

(** ** C8: termination of bracketMinimum *)

Section Termination.

Context {M : Type} {OM : Optimisable M} {SP : StoredParameters M}
  {K : Constants}.



End Termination.





(** The expansion branch at work on a parabola with its minimum at [2],
    between the first trial point and the first point of the expansion:
    the interpolated point is the minimum and the first [return] of the
    loop gives the valid bracket [(1, 2, 2.618..)]. *)
Definition parabola (x : Q) : Q := (x - 2) * (x - 2).

Example bracketMinimum_on_parabola :
  exists br t',
    @bracketMinimum vec (lineModel parabola) netlab 1 0 1 4 [0] [1]
      (newModelTrainer [0])
    = Ret (br, t')
    /\ valid_bracket parabola br.
Proof.
  destruct (@bracketMinimum vec (lineModel parabola) netlab 1 0 1 4 [0] [1]
              (newModelTrainer [0]))
    as [[[[br_min br_mid] br_max] t']| |] eqn:E;
    [|vm_compute in E; discriminate..].
  exists (br_min, br_mid, br_max), t'. split; [reflexivity|].
  vm_compute in E. injection E as <- <- <- _.
  unfold valid_bracket. repeat split; vm_compute; try reflexivity;
    discriminate.
Qed.

(** * Further properties of the code *)

(** ** setParameters and getParameters beyond the fitting case *)

Section MaskBounds.

Implicit Types (mask : list bool) (p full : vec) (i pos : nat).

(** What the loop of [setParameters] needs in order to run through: a
    supplied value for every [true] entry, and every [true] entry inside
    the full vector. *)
Definition writable mask (i pos : nat) p full : Prop :=
  (pos + count_true mask <= length p)%nat
  /\ forall k, mask !! k = Some true -> (i + k < length full)%nat.

Lemma writable_cons b mask i pos p full :
  writable (b :: mask) i pos p full
  <-> ((b = true -> (pos < length p)%nat /\ (i < length full)%nat)
       /\ writable mask (S i) (if b then S pos else pos) p full).
Proof.
  unfold writable. split.
  - intros [Hc Hk]. split; [|split].
    + intros ->. specialize (Hk 0%nat eq_refl). simpl in Hc. lia.
    + destruct b; simpl in Hc; lia.
    + intros k Hm. specialize (Hk (S k) Hm). lia.
  - intros (Hb & Hc & Hk). split.
    + destruct b; simpl; [destruct (Hb eq_refl)|]; lia.
    + intros [|k] Hm; simpl in Hm.
      * simplify_eq. destruct (Hb eq_refl). lia.
      * specialize (Hk k Hm). lia.
Qed.

Lemma writable_dec mask i pos p full :
  writable mask i pos p full \/ ~ writable mask i pos p full.
Proof.
  revert i pos. induction mask as [|b mask IH]; intros i pos.
  - destruct (decide (pos <= length p)%nat).
    + left. split; [simpl; lia|]. by intros k.
    + right. intros [Hc _]. simpl in Hc. lia.
  - rewrite writable_cons.
    destruct (IH (S i) (if b then S pos else pos)) as [Hw|Hw];
      [|right; tauto].
    destruct b; [|left; split; [done|exact Hw]].
    destruct (decide (pos < length p)%nat); [|right; intros [H _]; destruct (H eq_refl); lia].
    destruct (decide (i < length full)%nat); [|right; intros [H _]; destruct (H eq_refl); lia].
    left. split; [done|exact Hw].
Qed.

Lemma overwrite_active_nil mask p : overwrite_active mask [] p = [].
Proof. by destruct mask as [|[] mask]. Qed.

(** The loop runs through exactly on writable arguments, and then computes
    the overwritten vector. *)
Lemma setParameters_loop_writable mask : forall i pos p full,
  (pos <= length p)%nat ->
  writable mask i pos p full ->
  setParameters_loop mask i pos p full
  = Some (take i full ++ overwrite_active mask (drop i full) (drop pos p)).
Proof.
  induction mask as [|b mask IH]; intros i pos p full Hpos Hw; simpl.
  - by rewrite take_drop.
  - apply writable_cons in Hw as [Hb Hw]. destruct b.
    + destruct (Hb eq_refl) as [Hp Hi].
      destruct (lookup_lt_is_Some_2 p pos Hp) as [y Hy].
      destruct (lookup_lt_is_Some_2 full i Hi) as [x Hx].
      rewrite Hy. rewrite decide_True by exact Hi.
      rewrite IH; [|lia|].
      2:{ destruct Hw as [Hc Hk]. split; [done|].
          intros k Hm. rewrite length_insert. by apply Hk. }
      rewrite (drop_S _ _ _ Hx), (drop_S _ _ _ Hy). simpl.
      f_equal. rewrite take_insert_lt, drop_insert_lt by lia.
      rewrite (take_S_r _ _ _ Hx).
      rewrite insert_app_r_alt by (rewrite length_take; lia).
      rewrite length_take, Nat.min_l, Nat.sub_diag by lia.
      by rewrite <- app_assoc.
    + rewrite IH by done. f_equal.
      destruct (full !! i) as [x|] eqn:Hx.
      * rewrite (drop_S _ _ _ Hx). simpl.
        by rewrite (take_S_r _ _ _ Hx), <- app_assoc.
      * apply lookup_ge_None in Hx.
        rewrite (drop_ge full (S i)), (drop_ge full i), !take_ge by lia.
        by rewrite ?overwrite_active_nil.
Qed.

Lemma setParameters_loop_unwritable mask : forall i pos p full,
  (pos <= length p)%nat ->
  ~ writable mask i pos p full ->
  setParameters_loop mask i pos p full = None.
Proof.
  induction mask as [|b mask IH]; intros i pos p full Hpos Hw; simpl.
  - exfalso. apply Hw. split; [simpl; lia|]. by intros k.
  - rewrite writable_cons in Hw. destruct b.
    + destruct (p !! pos) as [y|] eqn:Hy; [|done].
      apply lookup_lt_Some in Hy.
      destruct (decide (i < length full)%nat) as [Hi|]; [|done].
      apply IH; [lia|]. intros Hw'. apply Hw. split; [done|].
      destruct Hw' as [Hc Hk]. split; [done|].
      intros k Hm. specialize (Hk k Hm). by rewrite length_insert in Hk.
    + apply IH; [done|]. intros Hw'. apply Hw. by split.
Qed.

End MaskBounds.

Section MaskExtras.

Context {M : Type} {OM : Optimisable M}.

Implicit Types (t : ModelTrainer M) (p : vec).

(** X1.  With a mask set, [setParameters] returns exactly when the
    supplied vector has a value for every [true] entry of the mask and
    every [true] entry lies inside the model's vector; in every other case
    the call stops at an out-of-range access.  When it returns, the model
    receives its own vector with the [true] positions overwritten: a mask
    shorter than the model's vector leaves the positions past its end as
    they were, and [false] entries past the end of the model's vector are
    passed over. *)
Theorem setParameters_exact_precondition t p :
  maskSet t = true ->
  let mask := optimisationMask t in
  let full := getParametersVector (model t) in
  let fits := (count_true mask <= length p)%nat
              /\ forall k, mask !! k = Some true -> (k < length full)%nat in
  (fits ->
   setParameters p t
   = Ret (tt, with_model
                (setParametersVector (overwrite_active mask full p) (model t))
                t)
   /\ length (overwrite_active mask full p) = length full
   /\ forall k, (length mask <= k)%nat ->
                overwrite_active mask full p !! k = full !! k)
  /\ (~ fits -> setParameters p t = Fault).
Proof.
  intros E mask full fits. subst mask full fits. split.
  - intros Hfit. split; [|split].
    + unfold setParameters, bind, gets, modify, lift. rewrite E.
      rewrite setParameters_loop_writable; [by rewrite drop_0|simpl; lia|].
      destruct Hfit as [Hc Hk]. split; [simpl; lia|].
      intros k Hm. simpl. by apply Hk.
    + apply length_overwrite_active.
    + intros k Hk. apply overwrite_active_other.
      rewrite (proj2 (lookup_ge_None _ _) Hk). done.
  - intros Hfit. unfold setParameters, bind, gets, modify, lift. rewrite E.
    rewrite setParameters_loop_unwritable; [done|simpl; lia|].
    intros [Hc Hk]. apply Hfit. split; [simpl in Hc; lia|].
    intros k Hm. specialize (Hk k Hm). simpl in Hk. lia.
Qed.

(** X2.  [getParameters] stops at its assertion exactly when a mask is set
    whose length differs from the length of the model's vector.  It never
    changes the trainer, and under a mask the vector it returns has as many
    entries as the mask has [true] entries. *)
Theorem getParameters_fails_exactly_on_mask_length t :
  (getParameters t = Fault
   <-> maskSet t = true
       /\ length (optimisationMask t) <> length (getParametersVector (model t)))
  /\ getParameters t <> NoFuel
  /\ forall q t', getParameters t = Ret (q, t') ->
       t' = t
       /\ (maskSet t = true -> length q = count_true (optimisationMask t)).
Proof.
  destruct (maskSet t) eqn:E.
  - destruct (decide (length (optimisationMask t)
                      = length (getParametersVector (model t)))) as [Hl|Hl].
    + rewrite getParameters_masked by done.
      split; [split; [done|intros [_ ?]; done]|].
      split; [done|]. intros q t' [= <- <-]. split; [done|].
      intros _. by apply length_active_subset.
    + rewrite getParameters_mismatch by done.
      split; [split; done|]. split; done.
  - rewrite getParameters_unmasked by done.
    split; [split; [done|intros [? _]; done]|].
    split; [done|]. intros q t' [= <- <-]. split; done.
Qed.

End MaskExtras.

Section MaskComposition.

Context {M : Type} {OM : Optimisable M} {SP : StoredParameters M}.

Implicit Types (t : ModelTrainer M) (p : vec).

(** X3.  What is set is what is read back: when the mask (if any) fits the
    model and the supplied vector has exactly one value per [true] entry,
    [setParameters p] followed by [getParameters] returns [p]. *)
Theorem set_then_get_returns_the_vector t p :
  mask_fits t ->
  (maskSet t = true -> length p = count_true (optimisationMask t)) ->
  exists t',
    setParameters p t = Ret (tt, t')
    /\ getParameters t' = Ret (p, t').
Proof.
  intros Hf Hp.
  assert (covers t p) as Hc by (intros E; rewrite Hp; auto).
  eexists. split; [by apply setParameters_ok|].
  unfold installed. destruct (maskSet t) eqn:E.
  - rewrite getParameters_masked; simpl; rewrite ?get_set; auto.
    + by rewrite active_subset_overwrite by auto.
    + rewrite length_overwrite_active. auto.
  - rewrite getParameters_unmasked by done. simpl. by rewrite get_set.
Qed.

(** X4.  The last write wins: two calls of [setParameters] in a row leave
    the trainer as the second call alone would. *)
Theorem setParameters_last_write_wins t p q :
  mask_fits t -> covers t p -> covers t q ->
  exists t1 t2,
    setParameters p t = Ret (tt, t1)
    /\ setParameters q t1 = Ret (tt, t2)
    /\ setParameters q t = Ret (tt, t2).
Proof.
  intros Hf Hp Hq. do 2 eexists.
  split; [by apply setParameters_ok|].
  rewrite (setParameters_ok t q) by done.
  split; [|reflexivity].
  rewrite setParameters_ok.
  - simpl. rewrite set_set.
    assert (installed
              (with_model (setParametersVector (installed t p) (model t)) t) q
            = installed t q) as ->; [|done].
    unfold installed. simpl. rewrite get_set.
    destruct (maskSet t) eqn:E; [|done].
    by rewrite overwrite_active_twice by auto.
  - intros E. simpl. rewrite get_set.
    unfold installed. simpl in E. rewrite E, length_overwrite_active. auto.
  - exact Hq.
Qed.

End MaskComposition.

(** ** The oracle: order of evaluations, numerical gradients *)

Section OracleExtras.

Context {M : Type} {OM : Optimisable M} {SP : StoredParameters M}.

Implicit Types (t : ModelTrainer M) (p q : vec).

(** The trainer after [k] function evaluations, the last of them at [p]:
    the model holds what [setParameters p] installs from [t]. *)
Definition evaluated t p (k : Z) : ModelTrainer M :=
  with_model (setParametersVector (installed t p) (model t)) (bump k t).

Lemma evaluated_start t : mask_fits t -> evaluated t (observed t) 0 = t.
Proof.
  intros Hf. unfold evaluated. rewrite installed_observed, set_get by done.
  rewrite bump_0. by destruct t.
Qed.

Lemma mask_fits_evaluated t p k :
  mask_fits t -> covers t p -> mask_fits (evaluated t p k).
Proof.
  intros Hf Hp E. simpl in *. rewrite get_set, length_installed; auto.
Qed.

Lemma installed_evaluated t p q k :
  mask_fits t -> covers t p -> covers t q ->
  installed (evaluated t p k) q = installed t q.
Proof.
  intros Hf Hp Hq. unfold installed, evaluated. simpl. rewrite get_set.
  destruct (maskSet t) eqn:E; [|done].
  unfold installed. rewrite E. apply overwrite_active_twice; auto.
Qed.

Lemma setParameters_evaluated t p q k :
  mask_fits t -> covers t p -> covers t q ->
  setParameters q (evaluated t p k) = Ret (tt, evaluated t q k).
Proof.
  intros Hf Hp Hq.
  rewrite setParameters_ok; [|by apply mask_fits_evaluated|exact Hq].
  rewrite installed_evaluated by done. simpl. by rewrite set_set.
Qed.

Lemma errorFunction_evaluated t p q k :
  mask_fits t -> covers t p -> covers t q ->
  errorFunction q (evaluated t p k)
  = Ret (objective_at t q, evaluated t q (k + 1)).
Proof.
  intros Hf Hp Hq. unfold errorFunction, bind, modify, gets.
  assert (with_functionEvaluations
            (functionEvaluations (evaluated t p k) + 1) (evaluated t p k)
          = evaluated t p (k + 1)) as ->.
  { unfold evaluated, bump, with_model, with_functionEvaluations. simpl.
    f_equal. lia. }
  by rewrite setParameters_evaluated.
Qed.

(** X5.  An evaluation does not depend on the evaluations before it: after
    [errorFunction p], [errorFunction q] returns the value that it returns
    from the trainer as it was, and leaves the same model. *)
Theorem errorFunction_forgets_earlier_points t p q :
  mask_fits t -> covers t p -> covers t q ->
  exists fp fq t1 t2 t3,
    errorFunction p t = Ret (fp, t1)
    /\ errorFunction q t1 = Ret (fq, t2)
    /\ errorFunction q t = Ret (fq, t3)
    /\ model t2 = model t3
    /\ functionEvaluations t2 = (functionEvaluations t3 + 1)%Z.
Proof.
  intros Hf Hp Hq. exists (objective_at t p), (objective_at t q).
  exists (evaluated t p 1), (evaluated t q (1 + 1)), (evaluated t q 1).
  split; [by apply errorFunction_ok|].
  split; [by apply errorFunction_evaluated|].
  split; [by apply errorFunction_ok|].
  split; [done|]. simpl. lia.
Qed.

Lemma getParameters_no_loop t : getParameters t <> NoFuel.
Proof.
  destruct (maskSet t) eqn:E.
  - destruct (decide (length (optimisationMask t)
                      = length (getParametersVector (model t)))) as [Hl|Hl].
    + by rewrite getParameters_masked.
    + by rewrite getParameters_mismatch.
  - by rewrite getParameters_unmasked.
Qed.

(** X6.  [lineFunction] returns exactly when the mask (if any) has the
    length of the model's vector, [param] has a value for every [true]
    entry of the mask, and [param] and [direction] have the same size; in
    every other case it stops at an assertion or an out-of-range access,
    and it never runs out of fuel. *)
Theorem lineFunction_exact_precondition t param lambda direction :
  let fits := mask_fits t /\ covers t param
              /\ length param = length direction in
  (fits ->
   lineFunction param lambda direction t
   = Ret (lineValue t param direction lambda, bump 1 t))
  /\ (~ fits -> lineFunction param lambda direction t = Fault).
Proof.
  intros fits. subst fits. split.
  - intros (Hf & Hc & Hl). by apply lineFunction_ok.
  - intros Hn.
    destruct (lineFunction param lambda direction t) as [[f t']| |] eqn:E.
    + exfalso. apply Hn. by eapply lineFunction_inv.
    + done.
    + exfalso. revert E. unfold lineFunction, bind.
      destruct (getParameters t) as [[xOld t1]| |] eqn:Eg; try done.
      2:{ by apply getParameters_no_loop in Eg. }
      unfold lift. destruct (vec_add _ _) as [trial|]; [|done]. simpl.
      unfold errorFunction, bind, modify, gets.
      assert (forall p (s : ModelTrainer M), setParameters p s <> NoFuel)
        as Hset.
      { intros p s. unfold setParameters, bind, gets, modify, lift, ret, fault.
        destruct (maskSet s); [|done].
        by destruct (setParameters_loop _ _ _ _ _). }
      destruct (setParameters trial _) as [[[] t2]| |] eqn:Es; try done.
      * destruct (setParameters xOld _) as [[[] t3]| |] eqn:Es'; try done.
        by apply Hset in Es'.
      * by apply Hset in Es.
Qed.

(** The central difference at index [i] around [params], from the
    objective as [errorFunction] sees it. *)
Definition central t (params : vec) (i : nat) : Q :=
  match params !! i with
  | Some x =>
      (1 # 2) * ((objective_at t (<[i := x + epsilon t]> params)
                  - objective_at t (<[i := x - epsilon t]> params))
                 / epsilon t)
  | None => 0
  end.

(** The last point that the central difference at [i] evaluates. *)
Definition lowered t (params : vec) (i : nat) : vec :=
  match params !! i with
  | Some x => <[i := x - epsilon t]> params
  | None => params
  end.

Lemma covers_lowered t params i :
  covers t params -> covers t (lowered t params i).
Proof.
  intros Hc E. unfold lowered.
  destruct (params !! i); rewrite ?length_insert; auto.
Qed.

Lemma calculateNumericalGradient_evaluated t params p k i :
  mask_fits t -> covers t params -> covers t p ->
  (i < length params)%nat ->
  calculateNumericalGradient i params (evaluated t p k)
  = Ret (central t params i, evaluated t (lowered t params i) (k + 1 + 1)).
Proof.
  intros Hf Hc Hp Hi. destruct (lookup_lt_is_Some_2 params i Hi) as [x Hx].
  unfold calculateNumericalGradient, bind, gets, lift, central, lowered.
  rewrite Hx. simpl.
  rewrite errorFunction_evaluated; auto.
  2:{ intros E. rewrite length_insert. auto. }
  rewrite errorFunction_evaluated; auto.
  - intros E. rewrite length_insert. auto.
  - intros E. rewrite length_insert. auto.
Qed.

Lemma numericalGradients_loop_evaluated t params todo :
  mask_fits t -> covers t params ->
  forall i g p k,
    covers t p ->
    (i + todo <= length params)%nat -> (i + todo <= length g)%nat ->
    exists g' p',
      numericalGradients_loop todo i params g (evaluated t p k)
      = Ret (g', evaluated t p' (k + 2 * Z.of_nat todo))
      /\ length g' = length g
      /\ (forall j, (i <= j < i + todo)%nat ->
                    g' !! j = Some (central t params j))
      /\ (forall j, ~ (i <= j < i + todo)%nat -> g' !! j = g !! j)
      /\ p' = match todo with
              | O => p
              | S d => lowered t params (i + d)
              end.
Proof.
  intros Hf Hc. induction todo as [|todo IH]; intros i g p k Hp Hi Hg.
  - exists g, p. simpl. rewrite Z.add_0_r. repeat split; auto. lia.
  - simpl. unfold bind at 1.
    rewrite calculateNumericalGradient_evaluated by (auto; lia).
    destruct (IH (S i) (<[i := central t params i]> g) (lowered t params i)
                (k + 1 + 1)%Z) as (g' & p' & Hr & Hlen & Hin & Hout & Hp');
      [by apply covers_lowered|lia|rewrite length_insert; lia|].
    exists g', p'. rewrite Hr. split; [do 3 f_equal; lia|].
    split; [by rewrite Hlen, length_insert|].
    split; [|split].
    + intros j Hj. destruct (decide (j = i)) as [->|].
      * rewrite Hout by lia. apply list_lookup_insert_eq. lia.
      * apply Hin. lia.
    + intros j Hj. rewrite Hout by lia. apply list_lookup_insert_ne. lia.
    + rewrite Hp'. destruct todo; [by rewrite Nat.add_0_r|].
      f_equal. lia.
Qed.

Lemma numericalGradients_ok t (params : vec) :
  mask_fits t -> covers t params ->
  exists g t',
    numericalGradients params t = Ret (g, t')
    /\ length g = length params
    /\ (forall i x, params !! i = Some x ->
          g !! i
          = Some ((1 # 2)
                  * ((objective_at t (<[i := x + epsilon t]> params)
                      - objective_at t (<[i := x - epsilon t]> params))
                     / epsilon t))%Q)
    /\ functionEvaluations t'
       = (functionEvaluations t + 2 * Z.of_nat (length params))%Z
    /\ gradientEvaluations t' = gradientEvaluations t
    /\ (forall x, last params = Some x ->
          getParametersVector (model t')
          = installed t
              (<[pred (length params) := (x - epsilon t)%Q]> params)).
Proof.
  intros Hf Hc. unfold numericalGradients. unfold bind at 1.
  rewrite setParameters_ok by done.
  change (with_model (setParametersVector (installed t params) (model t)) t)
    with (with_model (setParametersVector (installed t params) (model t))
            (with_functionEvaluations (functionEvaluations t) t)).
  assert (with_functionEvaluations (functionEvaluations t) t = bump 0 t) as ->
    by (unfold bump; by rewrite Z.add_0_r).
  fold (evaluated t params 0).
  destruct (numericalGradients_loop_evaluated t params (length params) Hf Hc
              0%nat (replicate (length params) 0%Q) params 0%Z Hc)
    as (g & p' & Hr & Hlen & Hin & _ & Hp');
    [lia|rewrite length_replicate; lia|].
  exists g. eexists. split; [exact Hr|].
  split; [by rewrite Hlen, length_replicate|].
  split; [|split; [simpl; lia|split; [done|]]].
  - intros i x Hx. rewrite Hin by (apply lookup_lt_Some in Hx; lia).
    unfold central. by rewrite Hx.
  - intros x Hx. simpl. rewrite get_set. rewrite Hp'.
    rewrite last_lookup in Hx.
    destruct (length params) as [|d] eqn:El; [by destruct params|].
    simpl in *. unfold lowered. by rewrite Hx.
Qed.

(** X7.  [numericalGradients] returns a vector with one entry per
    parameter, the entry at each index being the central difference
    [0.5 * ((f+ - f-) / epsilon)] around [params]; it counts two function
    evaluations per parameter, and it leaves the model at the last point
    it evaluated: [params] with its last entry lowered by [epsilon]. *)
Theorem numericalGradients_are_central_differences t (params : vec) :
  mask_fits t -> covers t params ->
  exists g t',
    numericalGradients params t = Ret (g, t')
    /\ length g = length params
    /\ (forall i x, params !! i = Some x ->
          g !! i
          = Some ((1 # 2)
                  * ((objective_at t (<[i := x + epsilon t]> params)
                      - objective_at t (<[i := x - epsilon t]> params))
                     / epsilon t))%Q)
    /\ functionEvaluations t'
       = (functionEvaluations t + 2 * Z.of_nat (length params))%Z
    /\ gradientEvaluations t' = gradientEvaluations t
    /\ (forall x, last params = Some x ->
          getParametersVector (model t')
          = installed t
              (<[pred (length params) := (x - epsilon t)%Q]> params)).
Proof. apply numericalGradients_ok. Qed.

(** X17.  The two branches of [errorGradients] size their results
    differently.  With analytic gradients the result is the model's
    gradient at the installed parameters, entries of masked-out parameters
    included: on a model whose gradient has one entry per parameter and
    with a mask set it has one entry per entry of the mask.  With numerical
    gradients the result has one entry per entry of the supplied vector. *)
Theorem errorGradients_sizes t (p : vec) :
  mask_fits t -> covers t p ->
  exists g t',
    errorGradients p t = Ret (g, t')
    /\ (analyticGradients t = true ->
        g = gradient (setParametersVector (installed t p) (model t))
        /\ ((forall m : M,
                length (gradient m) = length (getParametersVector m)) ->
            maskSet t = true ->
            length g = length (optimisationMask t)))
    /\ (analyticGradients t = false -> length g = length p).
Proof.
  intros Hf Hc. destruct (analyticGradients t) eqn:Ea.
  - unfold errorGradients. unfold bind at 1, gets at 1. rewrite Ea.
    unfold bind at 1, modify at 1. unfold bind at 1.
    rewrite (setParameters_ok
               (with_gradientEvaluations (gradientEvaluations t + 1) t) p
               Hf Hc).
    unfold gets. eexists _, _. split; [reflexivity|].
    split; [|done]. intros _. split; [done|].
    intros Hg Em. cbn [model with_model with_gradientEvaluations].
    rewrite Hg, get_set. unfold installed.
    cbn [maskSet with_gradientEvaluations optimisationMask model].
    rewrite Em, length_overwrite_active. symmetry. by apply Hf.
  - destruct (numericalGradients_ok t p Hf Hc)
      as (g & t' & Hr & Hlen & _).
    exists g, t'. split.
    { unfold errorGradients. unfold bind at 1, gets at 1. by rewrite Ea. }
    split; [done|]. by intros _.
Qed.

End OracleExtras.

(** ** The gradient-check table *)

Section TableExtras.

Context {M : Type} {OM : Optimisable M}.

Implicit Types (t : ModelTrainer M).

(** The three ways through one iteration of the loop of [checkGradient]:
    an active index under a mask, a masked-out index, an index without
    mask. *)
Inductive table_step t (i pos : nat) (xOld gNew : vec)
  : Q -> nat -> vec -> ModelTrainer M -> Prop :=
  | step_active delta t1 :
      maskSet t = true -> optimisationMask t !! i = Some true ->
      calculateNumericalGradient pos xOld t = Ret (delta, t1) ->
      table_step t i pos xOld gNew delta (S pos) gNew t1
  | step_masked_out :
      maskSet t = true -> optimisationMask t !! i = Some false ->
      (i < length gNew)%nat ->
      table_step t i pos xOld gNew 0 pos (<[i := 0]> gNew) t
  | step_unmasked delta t1 :
      maskSet t = false ->
      calculateNumericalGradient i xOld t = Ret (delta, t1) ->
      table_step t i pos xOld gNew delta pos gNew t1.

Lemma checkGradient_loop_unfold todo i pos xOld gNew rows t out t' :
  checkGradient_loop (S todo) i pos xOld gNew rows t = Ret (out, t') ->
  exists delta pos' gNew' gi t1,
    table_step t i pos xOld gNew delta pos' gNew' t1
    /\ gNew' !! i = Some gi
    /\ checkGradient_loop todo (S i) pos' xOld gNew'
         (rows ++ [mkGradientRow i delta gi (Num.abs (delta - gi))]) t1
       = Ret (out, t').
Proof.
  simpl. unfold bind at 1, gets at 1. unfold bind at 1.
  destruct (maskSet t) eqn:E.
  - unfold bind at 1, gets at 1. unfold bind at 1, lift at 1.
    destruct (optimisationMask t !! i) as [[]|] eqn:Hi; simpl; try done.
    + unfold bind at 1.
      destruct (calculateNumericalGradient pos xOld t) as [[delta t1]| |]
        eqn:Hc; simpl; try done.
      unfold bind at 1, lift at 1.
      destruct (gNew !! i) as [gi|] eqn:Hg; simpl; [|done].
      intros Hr. exists delta, (S pos), gNew, gi, t1.
      split; [by constructor|done].
    + destruct (decide (i < length gNew)%nat) as [Hlt|]; simpl; [|done].
      unfold bind at 1, lift at 1.
      rewrite list_lookup_insert_eq by done. simpl.
      intros Hr. exists 0, pos, (<[i := 0]> gNew), 0, t.
      split; [by constructor|].
      split; [by apply list_lookup_insert_eq|done].
  - unfold bind at 1.
    destruct (calculateNumericalGradient i xOld t) as [[delta t1]| |]
      eqn:Hc; simpl; try done.
    unfold bind at 1, lift at 1.
    destruct (gNew !! i) as [gi|] eqn:Hg; simpl; [|done].
    intros Hr. exists delta, pos, gNew, gi, t1.
    split; [by constructor|done].
Qed.

Lemma table_step_mask t i pos xOld gNew delta pos' gNew' t1 :
  table_step t i pos xOld gNew delta pos' gNew' t1 ->
  maskSet t1 = maskSet t /\ optimisationMask t1 = optimisationMask t.
Proof.
  destruct 1 as [delta t1 _ _ Hc| |delta t1 _ Hc]; auto;
    by apply calculateNumericalGradient_mask in Hc.
Qed.

Lemma table_step_later t i pos xOld gNew delta pos' gNew' t1 j :
  table_step t i pos xOld gNew delta pos' gNew' t1 ->
  j <> i -> gNew' !! j = gNew !! j.
Proof.
  destruct 1; auto. intros Hj. by apply list_lookup_insert_ne.
Qed.

(** Whether index [k] is evaluated: every index without mask, the [true]
    entries under a mask. *)
Definition active t (k : nat) : Prop :=
  maskSet t = false \/ optimisationMask t !! k = Some true.

Lemma checkGradient_loop_rows todo :
  forall i pos xOld gNew rows t out t',
    checkGradient_loop todo i pos xOld gNew rows t = Ret (out, t') ->
    exists new,
      out = rows ++ new
      /\ length new = todo
      /\ forall k r, new !! k = Some r ->
           row_index r = (i + k)%nat
           /\ row_difference r = Num.abs (row_delta r - row_analytic r)
           /\ (active t (i + k) -> gNew !! (i + k)%nat = Some (row_analytic r))
           /\ (~ active t (i + k) -> row_delta r = 0 /\ row_analytic r = 0).
Proof.
  induction todo as [|todo IH]; intros i pos xOld gNew rows t out t' Hr.
  - injection Hr as <- <-. exists []. rewrite app_nil_r.
    split; [done|]. split; [done|]. intros k r Hk. done.
  - apply checkGradient_loop_unfold in Hr
      as (delta & pos' & gNew' & gi & t1 & Hstep & Hgi & Hr).
    destruct (table_step_mask _ _ _ _ _ _ _ _ _ Hstep) as [Hs Hm].
    apply IH in Hr as (new & -> & Hlen & Hnew).
    exists (mkGradientRow i delta gi (Num.abs (delta - gi)) :: new).
    split; [by rewrite <- app_assoc|]. split; [simpl; lia|].
    intros [|k] r Hk; simpl in Hk.
    + injection Hk as <-. simpl. rewrite Nat.add_0_r.
      split; [done|]. split; [done|].
      destruct Hstep as [delta t1 E Hi _|E Hi Hlt|delta t1 E _].
      * split; [done|]. intros Hn. exfalso. apply Hn. by right.
      * rewrite list_lookup_insert_eq in Hgi by done. injection Hgi as <-.
        split; [|done]. intros [E'|Hi']; congruence.
      * split; [done|]. intros Hn. exfalso. apply Hn. by left.
    + destruct (Hnew k r Hk) as (Hidx & Hdiff & Hact & Hinact).
      replace (i + S k)%nat with (S i + k)%nat by lia.
      split; [done|]. split; [done|].
      unfold active in *. rewrite Hs, Hm in Hact, Hinact.
      split; [|done]. intros Ha.
      rewrite <- (table_step_later _ _ _ _ _ _ _ _ _ (S i + k) Hstep) by lia.
      by apply Hact.
Qed.

(** X8.  The table of [checkGradient] has one row per entry of the model's
    gradient, in index order; the third figure of a row is the absolute
    difference of its first two; the analytic figure is the model's
    gradient entry at an evaluated index and zero, like the numeric one, at
    a masked-out index. *)
Theorem checkGradient_table_shape t rows t' :
  checkGradient t = Ret (rows, t') ->
  length rows = length (gradient (model t))
  /\ forall k r, rows !! k = Some r ->
       row_index r = k
       /\ row_difference r = Num.abs (row_delta r - row_analytic r)
       /\ (active t k -> gradient (model t) !! k = Some (row_analytic r))
       /\ (~ active t k -> row_delta r = 0 /\ row_analytic r = 0).
Proof.
  unfold checkGradient. unfold bind at 1.
  destruct (getParameters t) as [[xOld t1]| |] eqn:Hg; try done.
  apply getParameters_pure in Hg as ->.
  unfold bind at 1, gets at 1. intros Hr.
  apply checkGradient_loop_rows in Hr as (new & -> & Hlen & Hnew).
  split; [done|]. intros k r Hk. by apply Hnew.
Qed.

(** The number of evaluated indices among the [todo] indices from [i]. *)
Definition evaluated_indices t (i todo : nat) : nat :=
  if maskSet t
  then count_true (take todo (drop i (optimisationMask t)))
  else todo.

Lemma checkGradient_loop_counts todo :
  forall i pos xOld gNew rows t out t',
    checkGradient_loop todo i pos xOld gNew rows t = Ret (out, t') ->
    functionEvaluations t'
    = (functionEvaluations t + 2 * Z.of_nat (evaluated_indices t i todo))%Z
    /\ gradientEvaluations t' = gradientEvaluations t.
Proof.
  induction todo as [|todo IH]; intros i pos xOld gNew rows t out t' Hr.
  - injection Hr as <- <-. unfold evaluated_indices.
    destruct (maskSet t); simpl; lia.
  - apply checkGradient_loop_unfold in Hr
      as (delta & pos' & gNew' & gi & t1 & Hstep & Hgi & Hr).
    destruct (table_step_mask _ _ _ _ _ _ _ _ _ Hstep) as [Hs Hm].
    apply IH in Hr as [Hfe Hge].
    unfold evaluated_indices in *. rewrite Hs, Hm in Hfe.
    destruct Hstep as [delta t1 E Hi Hc|E Hi Hlt|delta t1 E Hc].
    + apply counts_calculateNumericalGradient in Hc as [Hc1 Hc2].
      rewrite E in *. rewrite (drop_S _ _ _ Hi). simpl. lia.
    + rewrite E in *. rewrite (drop_S _ _ _ Hi). simpl. lia.
    + apply counts_calculateNumericalGradient in Hc as [Hc1 Hc2].
      rewrite E in *. lia.
Qed.

(** X9.  [checkGradient] counts two function evaluations per evaluated
    index (every gradient entry without a mask, the [true] entries under a
    mask) and leaves [gradientEvaluations] as it was: its call of the
    model's gradient is not counted. *)
Theorem checkGradient_counts t rows t' :
  checkGradient t = Ret (rows, t') ->
  functionEvaluations t'
  = (functionEvaluations t
     + 2 * Z.of_nat (evaluated_indices t 0 (length (gradient (model t)))))%Z
  /\ gradientEvaluations t' = gradientEvaluations t.
Proof.
  unfold checkGradient. unfold bind at 1.
  destruct (getParameters t) as [[xOld t1]| |] eqn:Hg; try done.
  apply getParameters_pure in Hg as ->.
  unfold bind at 1, gets at 1. apply checkGradient_loop_counts.
Qed.

End TableExtras.

Section TableValues.

Context {M : Type} {OM : Optimisable M} {SP : StoredParameters M}.

Implicit Types (t : ModelTrainer M).

Lemma rank_next (mask : list bool) (i : nat) (b : bool) :
  mask !! i = Some b ->
  rank mask (S i) = (rank mask i + (if b then 1 else 0))%nat.
Proof.
  intros Hi. unfold rank. rewrite (take_S_r _ _ _ Hi), count_true_app.
  simpl. lia.
Qed.

Lemma checkGradient_loop_fold t todo i pos xOld gNew rows
    delta pos' gNew' gi t1 :
  table_step t i pos xOld gNew delta pos' gNew' t1 ->
  gNew' !! i = Some gi ->
  checkGradient_loop (S todo) i pos xOld gNew rows t
  = checkGradient_loop todo (S i) pos' xOld gNew'
      (rows ++ [mkGradientRow i delta gi (Num.abs (delta - gi))]) t1.
Proof.
  intros Hstep Hgi. simpl. unfold bind at 1, gets at 1. unfold bind at 1.
  destruct Hstep as [delta t1 E Hi Hc|E Hi Hlt|delta t1 E Hc]; rewrite E.
  - unfold bind at 1, gets at 1. unfold bind at 1, lift at 1.
    rewrite Hi. simpl. unfold bind at 1. rewrite Hc. simpl.
    unfold bind at 1, lift at 1. by rewrite Hgi.
  - unfold bind at 1, gets at 1. unfold bind at 1, lift at 1.
    rewrite Hi. simpl. rewrite decide_True by done. simpl.
    unfold bind at 1, lift at 1. by rewrite Hgi.
  - unfold bind at 1. rewrite Hc. simpl.
    unfold bind at 1, lift at 1. by rewrite Hgi.
Qed.

(** The index of [xOld] that the row of index [k] is computed from. *)
Definition probe t (k : nat) : nat :=
  if maskSet t then rank (optimisationMask t) k else k.

Lemma evaluated_indices_0 t i : evaluated_indices t i 0 = 0%nat.
Proof. unfold evaluated_indices. by destruct (maskSet t). Qed.

Lemma evaluated_indices_masked t (i todo : nat) (b : bool) :
  maskSet t = true -> optimisationMask t !! i = Some b ->
  evaluated_indices t i (S todo)
  = ((if b then 1 else 0) + evaluated_indices t (S i) todo)%nat
  /\ probe t (S i) = (probe t i + (if b then 1 else 0))%nat.
Proof.
  intros E Hb. unfold evaluated_indices, probe. rewrite E.
  rewrite (drop_S _ _ _ Hb). split; [done|]. by apply rank_next.
Qed.

Lemma evaluated_indices_plain t i todo :
  maskSet t = false ->
  evaluated_indices t i (S todo) = S (evaluated_indices t (S i) todo)
  /\ probe t (S i) = S (probe t i) /\ probe t i = i.
Proof. intros E. unfold evaluated_indices, probe. by rewrite E. Qed.

Lemma checkGradient_loop_evaluated t (xOld : vec) todo :
  mask_fits t -> covers t xOld ->
  forall i pos gNew rows p k,
    covers t p ->
    (i + todo <= length gNew)%nat ->
    (maskSet t = true ->
     (i + todo <= length (optimisationMask t))%nat
     /\ pos = rank (optimisationMask t) i
     /\ (count_true (optimisationMask t) <= length xOld)%nat) ->
    (maskSet t = false -> (i + todo <= length xOld)%nat) ->
    exists new p',
      checkGradient_loop todo i pos xOld gNew rows (evaluated t p k)
      = Ret (rows ++ new,
             evaluated t p'
               (k + 2 * Z.of_nat (evaluated_indices t i todo)))
      /\ (forall j r, new !! j = Some r -> active t (i + j) ->
            row_delta r = central t xOld (probe t (i + j)))
      /\ p' = match evaluated_indices t i todo with
              | O => p
              | S d => lowered t xOld (probe t i + d)
              end.
Proof.
  intros Hf Hx. induction todo as [|todo IH];
    intros i pos gNew rows p k Hp Hg Hmask Hplain.
  - exists [], p. rewrite app_nil_r, evaluated_indices_0.
    change (checkGradient_loop 0 i pos xOld gNew rows (evaluated t p k))
      with (Ret (rows, evaluated t p k)).
    rewrite Z.add_0_r. split; [done|]. split; [|done]. by intros j r.
  - assert (i < length gNew)%nat as Hig by lia.
    destruct (lookup_lt_is_Some_2 gNew i Hig) as [gi Hgi].
    destruct (maskSet t) eqn:E.
    + destruct (Hmask eq_refl) as (Hlen & -> & Hcount).
      assert (i < length (optimisationMask t))%nat as Him by lia.
      destruct (lookup_lt_is_Some_2 (optimisationMask t) i Him) as [b Hb].
      destruct (evaluated_indices_masked t i todo b E Hb) as [Hei Hpr].
      assert (probe t i = rank (optimisationMask t) i) as Hpi
        by (unfold probe; by rewrite E).
      destruct b.
      * pose proof (rank_lt _ _ Hb) as Hlt.
        set (delta := central t xOld (rank (optimisationMask t) i)).
        rewrite (checkGradient_loop_fold _ todo i _ xOld gNew rows delta
                   (S (rank (optimisationMask t) i)) gNew gi
                   (evaluated t (lowered t xOld (rank (optimisationMask t) i))
                      (k + 1 + 1))); [| |done].
        2:{ apply step_active; [done|done|].
            apply calculateNumericalGradient_evaluated; auto. lia. }
        destruct (IH (S i) (S (rank (optimisationMask t) i)) gNew
                    (rows ++ [mkGradientRow i delta gi (Num.abs (delta - gi))])
                    (lowered t xOld (rank (optimisationMask t) i))
                    (k + 1 + 1)%Z)
          as (new & p' & Hr & Hrows & Hp');
          [by apply covers_lowered|lia| |congruence|].
        { intros _. split; [lia|]. split; [|done].
          rewrite (rank_next _ _ _ Hb). lia. }
        eexists (_ :: new), p'. rewrite Hr, <- app_assoc.
        split; [rewrite Hei; do 3 f_equal; lia|]. split.
        -- intros [|j] r Hj Ha.
           ++ injection Hj as <-. rewrite Nat.add_0_r, Hpi. done.
           ++ replace (i + S j)%nat with (S i + j)%nat in * by lia.
              by apply Hrows.
        -- rewrite Hp', Hei, Hpr, Hpi.
           destruct (evaluated_indices t (S i) todo); simpl;
             [by rewrite Nat.add_0_r|f_equal; lia].
      * rewrite (checkGradient_loop_fold _ todo i _ xOld gNew rows 0
                   (rank (optimisationMask t) i) (<[i := 0]> gNew) 0
                   (evaluated t p k)); [| |apply list_lookup_insert_eq; lia].
        2:{ apply step_masked_out; [done|done|lia]. }
        destruct (IH (S i) (rank (optimisationMask t) i) (<[i := 0]> gNew)
                    (rows ++ [mkGradientRow i 0 0 (Num.abs (0 - 0))]) p k)
          as (new & p' & Hr & Hrows & Hp');
          [done|rewrite length_insert; lia| |congruence|].
        { intros _. split; [lia|]. split; [|done].
          rewrite (rank_next _ _ _ Hb). lia. }
        eexists (_ :: new), p'. rewrite Hr, <- app_assoc.
        split; [by rewrite Hei|]. split.
        -- intros [|j] r Hj Ha.
           ++ exfalso. rewrite Nat.add_0_r in Ha.
              destruct Ha as [Ha|Ha]; congruence.
           ++ replace (i + S j)%nat with (S i + j)%nat in * by lia.
              by apply Hrows.
        -- rewrite Hp', Hei, Hpr, Nat.add_0_r. done.
    + specialize (Hplain eq_refl).
      destruct (evaluated_indices_plain t i todo E) as (Hei & Hpr & Hpi).
      set (delta := central t xOld i).
      rewrite (checkGradient_loop_fold _ todo i pos xOld gNew rows delta
                 pos gNew gi (evaluated t (lowered t xOld i) (k + 1 + 1)));
        [| |done].
      2:{ apply step_unmasked; [done|].
          apply calculateNumericalGradient_evaluated; auto. lia. }
      destruct (IH (S i) pos gNew
                  (rows ++ [mkGradientRow i delta gi (Num.abs (delta - gi))])
                  (lowered t xOld i) (k + 1 + 1)%Z)
        as (new & p' & Hr & Hrows & Hp');
        [by apply covers_lowered|lia|congruence|intros _; lia|].
      eexists (_ :: new), p'. rewrite Hr, <- app_assoc.
      split; [rewrite Hei; do 3 f_equal; lia|]. split.
      * intros [|j] r Hj Ha.
        -- injection Hj as <-. rewrite Nat.add_0_r, Hpi. done.
        -- replace (i + S j)%nat with (S i + j)%nat in * by lia.
           by apply Hrows.
      * rewrite Hp', Hei, Hpr, Hpi.
        destruct (evaluated_indices t (S i) todo); simpl;
          [by rewrite Nat.add_0_r|f_equal; lia].
Qed.

(** X10.  On a model whose gradient has one entry per parameter, with a
    fitting mask if any, [checkGradient] returns.  The numeric figure of
    every evaluated row is the central difference of the objective around
    the parameters [xOld] read at the start, at the row's place in that
    vector.  The model is not put back: it is left at the last point
    evaluated, which is [xOld] with its last entry lowered by [epsilon];
    only when there is no parameter to evaluate is the trainer what it
    was. *)
Theorem checkGradient_values_and_final_model t :
  mask_fits t ->
  length (gradient (model t)) = length (getParametersVector (model t)) ->
  exists rows t',
    checkGradient t = Ret (rows, t')
    /\ (forall k r, rows !! k = Some r -> active t k ->
          row_delta r = central t (observed t) (probe t k))
    /\ (forall x, last (observed t) = Some x ->
          getParametersVector (model t')
          = installed t
              (<[pred (length (observed t)) := (x - epsilon t)%Q]>
                 (observed t)))
    /\ (observed t = [] -> t' = t).
Proof.
  intros Hf Hgrad. unfold checkGradient. unfold bind at 1.
  rewrite getParameters_ok by done. unfold bind at 1, gets at 1.
  set (n := length (gradient (model t))).
  assert (evaluated_indices t 0 n = length (observed t)) as Hcount.
  { unfold evaluated_indices, observed. destruct (maskSet t) eqn:E.
    - specialize (Hf E). rewrite drop_0, take_ge by (unfold n; lia).
      by rewrite length_active_subset.
    - unfold n. lia. }
  destruct (checkGradient_loop_evaluated t (observed t) n Hf
              (covers_observed t Hf) 0%nat 0%nat (gradient (model t)) []
              (observed t) 0%Z (covers_observed t Hf))
    as (new & p' & Hr & Hrows & Hp').
  { unfold n. lia. }
  { intros E. specialize (Hf E). split; [unfold n; lia|].
    split; [by rewrite rank_0|].
    unfold observed. rewrite E, length_active_subset; auto. }
  { intros E. unfold observed. rewrite E. unfold n. lia. }
  rewrite evaluated_start in Hr by done.
  exists new. eexists. split; [exact Hr|].
  split; [exact Hrows|]. rewrite Hcount in *. split.
  - intros x Hx. simpl. rewrite get_set. rewrite Hp'.
    rewrite last_lookup in Hx.
    destruct (length (observed t)) as [|d] eqn:El;
      [by destruct (observed t)|].
    simpl in *.
    replace (probe t 0) with 0%nat
      by (unfold probe; destruct (maskSet t); by rewrite ?rank_0).
    simpl. unfold lowered. by rewrite Hx.
  - intros Hnil. rewrite Hnil in *. simpl in *. subst p'.
    rewrite <- Hnil. by apply evaluated_start.
Qed.

End TableValues.

(** ** The bookkeeping of the line minimiser *)

Section Bookkeeping.

Context {K : Constants}.

(** X11.  The bookkeeping after a trial point [u] inside the bracket
    never widens the bracket, keeps the best point inside it, and never
    raises the best value: the new [x] is [u] when the value at [u] is no
    greater than the value at [x], and [x] otherwise, and the new [fx] is
    the smaller of the two values.  The best value stays no greater than
    the second and third best. *)
Theorem update_keeps_bracket_and_best (s : linesearch) (e d u fu : Q) :
  ls_br_min s <= ls_x s -> ls_x s <= ls_br_max s ->
  ls_br_min s <= u -> u <= ls_br_max s ->
  let s' := update s e d u fu in
  ls_br_min s <= ls_br_min s' /\ ls_br_max s' <= ls_br_max s
  /\ ls_br_min s' <= ls_x s' /\ ls_x s' <= ls_br_max s'
  /\ (fu <= ls_fx s -> ls_x s' = u /\ ls_fx s' = fu)
  /\ (ls_fx s < fu -> ls_x s' = ls_x s /\ ls_fx s' = ls_fx s)
  /\ (ls_fx s <= ls_fw s -> ls_fx s <= ls_fv s ->
      ls_fx s' <= ls_fw s' /\ ls_fx s' <= ls_fv s')
  /\ ls_e s' = e /\ ls_d s' = d.
Proof.
  destruct s as [br_min br_max w v x e0 d0 fx fv fw]. simpl.
  intros Hlo Hhi Hulo Huhi. unfold update.
  destruct (Num.leb_spec fu fx) as [Hfu|Hfu].
  - destruct (Num.leb_spec x u); simpl; repeat split; auto; try lra.
  - destruct (Num.ltb_spec u x);
      destruct (Num.leb fu fw || Num.eqb w x) eqn:E1;
      [| destruct (Num.leb fu fv || Num.eqb v x || Num.eqb v w) eqn:E2
       | | destruct (Num.leb fu fv || Num.eqb v x || Num.eqb v w) eqn:E2];
      simpl; repeat split; auto; try lra.
Qed.

Lemma scaled_towards (k e : Q) :
  0 <= k -> k <= 1 ->
  (0 <= e -> 0 <= k * e /\ k * e <= e)
  /\ (e <= 0 -> e <= k * e /\ k * e <= 0).
Proof.
  intros Hk0 Hk1. split; intros He.
  - assert (0 <= k * e) by (apply Qmult_le_0_compat; lra).
    assert (0 <= (1 - k) * e) as H1 by (apply Qmult_le_0_compat; lra).
    assert ((1 - k) * e == e - k * e) as E by ring. rewrite E in H1. lra.
  - assert (0 <= k * - e) as H0 by (apply Qmult_le_0_compat; lra).
    assert (k * - e == - (k * e)) as E0 by ring. rewrite E0 in H0.
    assert (0 <= (1 - k) * - e) as H1 by (apply Qmult_le_0_compat; lra).
    assert ((1 - k) * - e == k * e - e) as E by ring. rewrite E in H1. lra.
Qed.

Lemma golden_step_inside (x xm br_min br_max : Q) :
  0 <= CPHI -> CPHI <= 1 -> br_min <= x -> x <= br_max ->
  br_min <= x + snd (golden_step x xm br_min br_max)
  /\ x + snd (golden_step x xm br_min br_max) <= br_max.
Proof.
  intros Hk0 Hk1 Hlo Hhi. unfold golden_step. simpl.
  destruct (Num.leb xm x).
  - destruct (scaled_towards CPHI (br_min - x) Hk0 Hk1) as [_ H].
    destruct H; lra.
  - destruct (scaled_towards CPHI (br_max - x) Hk0 Hk1) as [H _].
    destruct H; lra.
Qed.

(** X12.  With [0 <= CPHI <= 1] and [x] inside the bracket, the step [d]
    that an iteration chooses leads to a point [x + d] inside the bracket,
    be it the golden-section step or the accepted parabolic step, unless
    the parabolic step came within [2 * tol1] of an edge and was replaced
    by the step [sign(xm - x) * tol1]. *)
Theorem trial_step_stays_inside (s : linesearch) (xm tol1 : Q) :
  0 <= CPHI -> CPHI <= 1 ->
  ls_br_min s <= ls_x s -> ls_x s <= ls_br_max s ->
  let d := snd (trial_step s xm tol1) in
  (ls_br_min s <= ls_x s + d /\ ls_x s + d <= ls_br_max s)
  \/ d = Num.sign (xm - ls_x s) * tol1.
Proof.
  destruct s as [br_min br_max w v x e d0 fx fv fw].
  cbn [ls_br_min ls_br_max ls_x].
  intros Hk0 Hk1 Hlo Hhi. unfold trial_step.
  destruct (Num.ltb tol1 (Num.abs e));
    [|left; by apply golden_step_inside].
  cbv zeta.
  set (r := (fx - fv) * (x - w)).
  set (q0 := 2 * ((fx - fw) * (x - v) - r)).
  set (p := if Num.ltb 0 q0
            then - ((x - v) * ((fx - fw) * (x - v)) - (x - w) * r)
            else (x - v) * ((fx - fw) * (x - v)) - (x - w) * r).
  set (q := Num.abs q0).
  destruct (Num.leb (Num.abs ((1 # 2) * q * e)) (Num.abs p)
            || Num.leb p (q * (br_min - x))
            || Num.leb (q * (br_max - x)) p) eqn:Etest;
    [left; by apply golden_step_inside|].
  apply orb_false_iff in Etest as [Etest Ehi].
  apply orb_false_iff in Etest as [_ Elo].
  apply Num.leb_false in Elo, Ehi.
  destruct (Num.ltb (x + p / q - br_min) (2 * tol1)
            || Num.ltb (br_max - (x + p / q)) (2 * tol1));
    [by right|left]. cbn [snd].
  assert (0 <= q) as Hq0 by apply Qabs_nonneg.
  assert (0 < q) as Hq.
  { destruct (Qlt_le_dec 0 q) as [|Hle]; [done|]. exfalso.
    assert (q == 0) as E by lra. rewrite E in Elo, Ehi. lra. }
  assert (br_min - x < p / q) by (apply Qlt_shift_div_l; lra).
  assert (p / q < br_max - x).
  { apply Qlt_shift_div_r; [done|]. lra. }
  lra.
Qed.

End Bookkeeping.

(** ** The frame of bracketMinimum and lineMinimiser *)

Section Frame.

Context {M : Type} {OM : Optimisable M} {SP : StoredParameters M}
  {K : Constants}.

Variables (t : ModelTrainer M) (params direction : vec).

Hypothesis Hfit : mask_fits t.
Hypothesis Hcov : covers t params.
Hypothesis Hlen : length params = length direction.

Let f : Q -> Q := lineValue t params direction.

Lemma frame_evaluates n lambda :
  lineFunction params lambda direction (bump n t)
  = Ret (f lambda, bump (n + 1) t).
Proof. by apply lineFunction_bump. Qed.

(** The points of the expansion loop are in order. *)
Definition ordered (s : expansion) : Prop :=
  ex_a s < ex_b s /\ ex_b s < ex_c s.

(** What every return of the expansion loop keeps of the order. *)
Definition half_ordered (br : bracket) : Prop :=
  let '(br_min, br_mid, br_max) := br in
  br_min < br_mid /\ br_min < br_max.

Lemma shrink_frame a fa fuel :
  forall b c fb n r t',
    bracketMinimum_shrink fuel a b c fa fb params direction (bump n t)
    = Ret (r, t') ->
    (exists n', (n <= n')%Z /\ t' = bump n' t)
    /\ (1 < PHI -> a < b -> b < c -> a < fst r /\ fst r < snd r).
Proof.
  induction fuel as [|fuel IH]; intros b c fb n r t';
    simpl; destruct (Num.ltb fa fb); try done; unfold ret.
  - intros [= <- <-]. split; [exists n; split; [lia|done]|done].
  - unfold bind. rewrite frame_evaluates. intros Hr.
    apply IH in Hr as ((n' & Hn & ->) & Hr).
    split; [exists n'; split; [lia|done]|].
    intros HP Hab Hbc. apply Hr; [done| |].
    + apply golden_above; lra.
    + by apply golden_below.
  - intros [= <- <-]. split; [exists n; split; [lia|done]|done].
Qed.

Lemma step_frame s n r t' :
  bracketMinimum_step s params direction (bump n t) = Ret (r, t') ->
  (exists n', (n <= n' <= n + 2)%Z /\ t' = bump n' t)
  /\ (1 < PHI -> ordered s ->
      match r with
      | inl s' => ordered s'
      | inr br => half_ordered br
      end).
Proof.
  unfold bracketMinimum_step, ordered in *.
  remember (interpolate s) as u eqn:Eu. clear Eu.
  destruct s as [a b c fa fb fc fu bf].
  cbn [ex_a ex_b ex_c] in *.
  cbv beta zeta.
  set (ulimit := b + max_step * (c - b)) in *.
  assert (a < b /\ b < c -> c < ulimit) as Hlim
    by (unfold ulimit, max_step; lra).
  assert (forall (b' c' u' fu' : Q) (bf' : bool) n1 r1 t1,
            bind (if bf' then ret fu'
                  else lineFunction params u' direction)
              (fun fu0 =>
                 ret (inl (mkExpansion b' c' u' fb fc fu0 fu0 bf')))
              (bump n1 t)
            = Ret (r1, t1) ->
            (exists n', (n1 <= n' <= n1 + 1)%Z /\ t1 = bump n' t)
            /\ (b' < c' -> c' < u' ->
                match r1 with
                | inl s' => ordered s'
                | inr br => half_ordered br
                end)) as Hshift.
  { intros b' c' u' fu' bf' n1 r1 t1. unfold bind.
    destruct bf'; unfold ret.
    - intros [= <- <-]. split; [exists n1; split; [lia|done]|done].
    - rewrite frame_evaluates. intros [= <- <-].
      split; [exists (n1 + 1)%Z; split; [lia|done]|done]. }
  destruct (Num.xpos (Num.xmul (Num.xrsub b u) (Num.xsub u c))) eqn:T1.
  - destruct u as [uq| | |]; try discriminate T1.
    cbn [Num.xpos Num.xmul Num.xrsub Num.xsub Num.xplus Num.xopp Num.xvalue]
      in *.
    apply Num.ltb_true, product_positive in T1.
    unfold bind at 1. rewrite frame_evaluates.
    destruct (Num.ltb (f uq) fc).
    { unfold ret. intros [= <- <-].
      split; [exists (n + 1)%Z; split; [lia|done]|]. simpl. lra. }
    destruct (Num.ltb fb (f uq)).
    { unfold ret. intros [= <- <-].
      split; [exists (n + 1)%Z; split; [lia|done]|]. simpl. lra. }
    intros Hr. apply Hshift in Hr as ((n' & Hn & ->) & Hr).
    split; [exists n'; split; [lia|done]|].
    intros HP Hord. apply Hr; [lra|]. apply step_ahead; lra.
  - destruct (Num.xpos (Num.xmul (Num.xrsub c u) (Num.xsub u ulimit))) eqn:T2.
    + destruct u as [uq| | |]; try discriminate T2.
      cbn [Num.xpos Num.xmul Num.xrsub Num.xsub Num.xplus Num.xopp Num.xvalue]
        in *.
      apply Num.ltb_true, product_positive in T2.
      unfold bind at 1. rewrite frame_evaluates.
      destruct (Num.ltb (f uq) fc); intros Hr.
      * apply Hshift in Hr as ((n' & Hn & ->) & Hr).
        split; [exists n'; split; [lia|done]|].
        intros HP Hord. specialize (Hlim Hord).
        apply Hr; [lra|]. apply step_ahead; lra.
      * apply (Hshift b c uq (f uq) true) in Hr as ((n' & Hn & ->) & Hr).
        split; [exists n'; split; [lia|done]|].
        intros HP Hord. specialize (Hlim Hord). apply Hr; lra.
    + destruct (Num.xnonneg _); intros Hr;
        apply Hshift in Hr as ((n' & Hn & ->) & Hr);
        (split; [exists n'; split; [lia|done]|]);
        intros HP Hord; specialize (Hlim Hord); (apply Hr; [lra|]);
        [lra|apply step_ahead; lra].
Qed.

Lemma expand_frame fuel :
  forall s n r t',
    bracketMinimum_expand fuel s params direction (bump n t) = Ret (r, t') ->
    (exists n', (n <= n')%Z /\ t' = bump n' t)
    /\ (1 < PHI -> ordered s ->
        match r with
        | inl s' => ordered s'
        | inr br => half_ordered br
        end).
Proof.
  induction fuel as [|fuel IH]; intros s n r t'; simpl;
    destruct (Num.ltb (ex_fc s) (ex_fb s)); try done; unfold ret.
  - intros [= <- <-]. split; [exists n; split; [lia|done]|done].
  - unfold bind.
    destruct (bracketMinimum_step s params direction (bump n t))
      as [[r1 t1]| |] eqn:Es; try done.
    apply step_frame in Es as ((n1 & Hn1 & ->) & Hr1).
    destruct r1 as [s1|br].
    + intros Hr. apply IH in Hr as ((n' & Hn & ->) & Hr).
      split; [exists n'; split; [lia|done]|].
      intros HP Hord. apply Hr; [done|]. by apply Hr1.
    + unfold ret. intros [= <- <-].
      split; [exists n1; split; [lia|done]|done].
  - intros [= <- <-]. split; [exists n; split; [lia|done]|done].
Qed.

Lemma bracketMinimum_frame fuel a b fa br t' :
  bracketMinimum fuel a b fa params direction t = Ret (br, t') ->
  (exists k, (2 <= k)%Z /\ t' = bump k t)
  /\ (1 < PHI -> a < b -> half_ordered br).
Proof.
  unfold bracketMinimum. unfold bind at 1.
  rewrite lineFunction_ok by done. fold f.
  destruct (Num.ltb fa (f b)); cbv zeta; unfold bind at 1;
    rewrite (frame_evaluates 1); unfold bind at 1.
  - destruct (bracketMinimum_shrink _ _ _ _ _ _ _ _ _) as [[[b' c'] t1]| |]
      eqn:E; try done.
    apply shrink_frame in E as ((n' & Hn & ->) & Hr).
    unfold ret. intros [= <- <-]. simpl in *.
    split; [exists n'; split; [lia|done]|].
    intros HP Hab. destruct Hr as [Hb' Hc'];
      [done|apply golden_above; lra|by apply golden_below|].
    unfold bracketMinimum_finish.
    rewrite (proj2 (Num.ltb_true _ _)) by lra. simpl. lra.
  - destruct (bracketMinimum_expand _ _ _ _ _) as [[r t1]| |] eqn:E;
      try done.
    apply expand_frame in E as ((n' & Hn & ->) & Hr).
    destruct r as [[a' b' c' fa' fb' fc' fu' bf']|br']; unfold ret;
      intros [= <- <-]; (split; [exists n'; split; [lia|done]|]);
      intros HP Hab;
      (specialize (Hr HP); cbn [ex_a ex_b ex_c] in Hr;
       assert (ordered (mkExpansion a b (b + PHI * (b - a)) fa (f b)
                          (f (b + PHI * (b - a))) 0 false)) as Hord
         by (split; [done|apply step_ahead; simpl; lra]);
       specialize (Hr Hord)).
    + destruct Hr as [Ha' Hb']. simpl in *. unfold bracketMinimum_finish.
      rewrite (proj2 (Num.ltb_true _ _)) by lra. simpl. lra.
    + done.
Qed.

End Frame.

(** ** The iterations of lineMinimiser *)

Section LineSearch.

Context {M : Type} {OM : Optimisable M} {SP : StoredParameters M}
  {K : Constants}.

Variables (t : ModelTrainer M) (params direction : vec).

Hypothesis Hfit : mask_fits t.
Hypothesis Hcov : covers t params.
Hypothesis Hlen : length params = length direction.

Let f : Q -> Q := lineValue t params direction.

(** The best point of an iteration is the best of the next, unless the
    trial point is at least as good. *)
Lemma update_best s e d u :
  ls_fx s = f (ls_x s) ->
  ls_fx (update s e d u (f u)) = f (ls_x (update s e d u (f u)))
  /\ ls_fx (update s e d u (f u)) <= ls_fx s.
Proof.
  destruct s as [mn mx w v x e0 d0 fx fv fw]. unfold update.
  cbn [ls_fx ls_x]. intros ->.
  destruct (Num.leb_spec (f u) (f x)); [simpl; split; [done|lra]|].
  destruct (_ || _); [simpl; split; [done|lra]|].
  destruct (_ || _); simpl; split; done || lra.
Qed.

Lemma lineMinimiser_step_frame s n :
  (stops (lineMinimiserParameterTolerance t) s
   /\ lineMinimiser_step s params direction (bump n t)
      = Ret (Converged, with_functionValue (ls_fx s) (bump n t)))
  \/ (~ stops (lineMinimiserParameterTolerance t) s
      /\ exists e d u,
          lineMinimiser_step s params direction (bump n t)
          = Ret (Continue (update s e d u (f u)), bump (n + 1) t)).
Proof.
  assert (lineMinimiserParameterTolerance (bump n t)
          = lineMinimiserParameterTolerance t) as Etol by done.
  destruct (Num.leb
              (Num.abs (ls_x s - (1 # 2) * (ls_br_min s + ls_br_max s)))
              (lineMinimiserParameterTolerance t)
            && Num.ltb (ls_br_max s - ls_br_min s)
                 (4 * lineMinimiserParameterTolerance t)) eqn:E.
  - left. split; [by apply stops_test|].
    unfold lineMinimiser_step. cbv zeta. unfold bind at 1, gets at 1.
    by rewrite Etol, E.
  - right. split.
    { intros Hs. apply stops_test in Hs. congruence. }
    unfold lineMinimiser_step. cbv zeta.
    destruct (trial_step _ _ _) as [e d].
    eexists e, d, _. unfold bind at 1, gets at 1. rewrite Etol, E.
    unfold bind.
    rewrite (lineFunction_bump t params direction Hfit Hcov Hlen).
    reflexivity.
Qed.

Lemma lineMinimiser_loop_frame todo :
  forall s n,
    ls_fx s = f (ls_x s) ->
    exists s' t',
      lineMinimiser_loop todo s params direction (bump n t) = Ret (s', t')
      /\ ls_fx s' = f (ls_x s') /\ ls_fx s' <= ls_fx s
      /\ (todo = O -> s' = s)
      /\ (t' = bump (n + Z.of_nat todo) t
          \/ exists j, (0 <= j < Z.of_nat todo)%Z
               /\ stops (lineMinimiserParameterTolerance t) s'
               /\ t' = with_functionValue (ls_fx s') (bump (n + j) t)).
Proof.
  induction todo as [|todo IH]; intros s n Hs.
  - exists s, (bump n t). simpl.
    split; [done|]. split; [done|]. split; [lra|]. split; [done|].
    left. by rewrite Z.add_0_r.
  - cbn [lineMinimiser_loop]. unfold bind at 1.
    destruct (lineMinimiser_step_frame s n)
      as [(Hstop & ->)|(Hgo & e & d & u & ->)].
    + exists s, (with_functionValue (ls_fx s) (bump n t)).
      split; [done|]. split; [done|]. split; [lra|]. split; [done|].
      right. exists 0%Z. rewrite Z.add_0_r.
      split; [lia|]. by split.
    + destruct (update_best s e d u Hs) as [Hs1 Hle].
      destruct (IH (update s e d u (f u)) (n + 1)%Z Hs1)
        as (s' & t' & -> & Hs' & Hle' & _ & Hend).
      exists s', t'.
      split; [done|]. split; [done|]. split; [lra|]. split; [done|].
      destruct Hend as [->|(j & Hj & Hstop & ->)].
      * left. f_equal. lia.
      * right. exists (1 + j)%Z. split; [lia|]. split; [done|].
        f_equal. f_equal. lia.
Qed.

Lemma lineMinimiser_frame fuel fa br_min br_mid br_max t0 :
  bracketMinimum fuel 0 1 fa params direction t
  = Ret ((br_min, br_mid, br_max), t0) ->
  exists k s' t',
    (2 <= k)%Z /\ t0 = bump k t
    /\ lineMinimiser fuel fa params direction t
       = Ret ((ls_fx s', ls_x s'), t')
    /\ ls_fx s' = f (ls_x s') /\ ls_fx s' <= f br_mid
    /\ ((lineMinimiserIterations t <= 0)%Z -> ls_x s' = br_mid)
    /\ (t' = bump (k + 1 + Z.max 0 (lineMinimiserIterations t)) t
        \/ exists j, (0 <= j < lineMinimiserIterations t)%Z
             /\ stops (lineMinimiserParameterTolerance t) s'
             /\ t' = with_functionValue (ls_fx s') (bump (k + 1 + j) t)).
Proof.
  intros E.
  destruct (bracketMinimum_frame t params direction Hfit Hcov Hlen
              fuel 0 1 fa _ _ E) as ((k & Hk & ->) & _).
  unfold lineMinimiser. unfold bind at 1. rewrite E. cbv beta iota zeta.
  unfold bind at 1.
  rewrite (lineFunction_bump t params direction Hfit Hcov Hlen).
  unfold bind at 1, gets at 1. cbv beta iota.
  change (lineMinimiserIterations (bump (k + 1) t))
    with (lineMinimiserIterations t).
  fold f.
  destruct (lineMinimiser_loop_frame (Z.to_nat (lineMinimiserIterations t))
              (mkLinesearch br_min br_max br_mid br_mid br_mid 0 0
                 (f br_mid) (f br_mid) (f br_mid)) (k + 1)%Z)
    as (s' & t' & Hloop & Hs' & Hle & Hzero & Hend); [done|].
  exists k, s', t'. split; [done|]. split; [done|].
  split. { unfold bind. by rewrite Hloop. }
  split; [done|]. split; [exact Hle|].
  split.
  { intros Hcap. rewrite Hzero; [done|lia]. }
  destruct Hend as [->|(j & Hj & Hstop & ->)].
  - left. f_equal. lia.
  - right. exists j. split; [lia|]. by split.
Qed.

End LineSearch.

(** ** What bracketMinimum and lineMinimiser leave behind *)

Section SearchExtras.

Context {M : Type} {OM : Optimisable M} {SP : StoredParameters M}
  {K : Constants}.

Variables (t : ModelTrainer M) (params direction : vec).

(** X13.  Whatever the line function and the start, a call of
    [bracketMinimum] that returns has changed nothing of the trainer and
    its model but the count of function evaluations, which it has raised by
    at least two.  With [PHI > 1] and [a < b], the point it returns as
    [br_min] lies strictly below both [br_mid] and [br_max]: this holds at
    the loop exits and at both [return] statements inside the expansion
    loop. *)
Theorem bracketMinimum_counts_and_orders fuel a b fa br t' :
  mask_fits t -> covers t params -> length params = length direction ->
  bracketMinimum fuel a b fa params direction t = Ret (br, t') ->
  (exists k, (2 <= k)%Z /\ t' = bump k t)
  /\ (1 < PHI -> a < b ->
      let '(br_min, br_mid, br_max) := br in
      br_min < br_mid /\ br_min < br_max).
Proof.
  intros Hfit Hcov Hlen E.
  destruct (bracketMinimum_frame t params direction Hfit Hcov Hlen
              fuel a b fa br t' E) as [Hframe Horder].
  split; [done|]. intros HP Hab. specialize (Horder HP Hab).
  by destruct br as [[br_min br_mid] br_max].
Qed.

(** X14.  When [bracketMinimum], called with [fa] the value at [a], with
    [a < b] and [PHI > 1], returns through its shrinking branch (the value
    at [b] exceeds the value at [a]), the triple is a valid bracket,
    whatever the line function.  When it returns through its expansion
    branch on a function that is strictly unimodal, the triple is a valid
    bracket unless the loop has come to an iteration that takes the branch
    "interpolant between [c] and [ulimit], value below [fc]". *)
Theorem bracketMinimum_valid_unless_moved_along fuel a b m br t' :
  mask_fits t -> covers t params -> length params = length direction ->
  1 < PHI -> a < b ->
  let f := lineValue t params direction in
  bracketMinimum fuel a b (f a) params direction t = Ret (br, t') ->
  (f a < f b -> valid_bracket f br)
  /\ (f b <= f a -> unimodal_at f m ->
      valid_bracket f br
      \/ exists s',
          visits t params direction
            (mkExpansion a b (b + PHI * (b - a)) (f a) (f b)
               (f (b + PHI * (b - a))) 0 false) s'
          /\ moves_along t params direction s').
Proof.
  intros Hfit Hcov Hlen HP Hab f E. split.
  - intros Hworse.
    by apply (shrinking_branch_valid t params direction Hfit Hcov Hlen
                fuel a b br t').
  - intros Hle Huni.
    destruct (expanding_branch t params direction Hfit Hcov Hlen m a b
                HP Huni Hab Hle) as [N HN].
    destruct (HN (Nat.max fuel N)) as [(br2 & k & E2 & Hv)|Hm];
      [lia| |by right].
    left.
    assert (bracketMinimum (Nat.max fuel N) a b (f a) params direction t
            = Ret (br, t')) as E3.
    { eapply bracketMinimum_more; [|exact E]. lia. }
    unfold f in *. rewrite E2 in E3. by simplify_eq.
Qed.

(** X15.  When the bracketing returns, so does [lineMinimiser], whatever
    the bracket: the value [fx] it returns is the value of the line
    function at the point [x] it returns, and it is no greater than the
    value at the [br_mid] the bracketing gave.  The model is as before the
    call.  With [lineMinimiserIterations] zero or negative the loop body
    never runs and [x] is [br_mid].  When the bracketing does not return,
    neither does [lineMinimiser]. *)
Theorem lineMinimiser_returns_best_point fuel fa :
  mask_fits t -> covers t params -> length params = length direction ->
  match bracketMinimum fuel 0 1 fa params direction t with
  | Ret ((br_min, br_mid, br_max), t0) =>
      exists fx x t',
        lineMinimiser fuel fa params direction t = Ret ((fx, x), t')
        /\ fx = lineValue t params direction x
        /\ fx <= lineValue t params direction br_mid
        /\ model t' = model t
        /\ ((lineMinimiserIterations t <= 0)%Z -> x = br_mid)
  | Fault => lineMinimiser fuel fa params direction t = Fault
  | NoFuel => lineMinimiser fuel fa params direction t = NoFuel
  end.
Proof.
  intros Hfit Hcov Hlen.
  destruct (bracketMinimum fuel 0 1 fa params direction t)
    as [[[[br_min br_mid] br_max] t0]| |] eqn:E.
  - destruct (lineMinimiser_frame t params direction Hfit Hcov Hlen
                fuel fa br_min br_mid br_max t0 E)
      as (k & s' & t' & Hk & -> & Hr & Hs' & Hle & Hzero & Hend).
    exists (ls_fx s'), (ls_x s'), t'.
    split; [done|]. split; [done|]. split; [done|]. split; [|done].
    by destruct Hend as [->|(j & _ & _ & ->)].
  - unfold lineMinimiser, bind. by rewrite E.
  - unfold lineMinimiser, bind. by rewrite E.
Qed.

(** X16.  What a returning call of [lineMinimiser] leaves in the trainer.
    Beyond the [k >= 2] evaluations of the bracketing it makes one
    evaluation at [br_mid] and one per iteration.  Either it runs all of
    its [lineMinimiserIterations] iterations, and then [functionValue] and
    everything but the evaluation count is as before the call: the value
    found is not recorded.  Or it leaves at the stopping test of an
    earlier iteration, after fewer evaluations, and then [functionValue]
    is the returned [fx]. *)
Theorem lineMinimiser_records_value_only_on_convergence
    fuel fa br_min br_mid br_max t0 fx x t' :
  mask_fits t -> covers t params -> length params = length direction ->
  bracketMinimum fuel 0 1 fa params direction t
  = Ret ((br_min, br_mid, br_max), t0) ->
  lineMinimiser fuel fa params direction t = Ret ((fx, x), t') ->
  exists k, (2 <= k)%Z /\ t0 = bump k t
    /\ (t' = bump (k + 1 + Z.max 0 (lineMinimiserIterations t)) t
        \/ exists j, (0 <= j < lineMinimiserIterations t)%Z
             /\ t' = with_functionValue fx (bump (k + 1 + j) t)).
Proof.
  intros Hfit Hcov Hlen E Hr.
  destruct (lineMinimiser_frame t params direction Hfit Hcov Hlen
              fuel fa br_min br_mid br_max t0 E)
    as (k & s' & t1 & Hk & -> & Hr1 & Hs' & Hle & Hzero & Hend).
  rewrite Hr1 in Hr. simplify_eq.
  exists k. split; [done|]. split; [done|].
  destruct Hend as [->|(j & Hj & _ & ->)]; [by left|].
  right. by exists j.
Qed.

End SearchExtras.

(** ** The further properties at work *)

(** A trainer with another value of the option [lineMinimiserIterations]. *)
Definition with_lineMinimiserIterations {M} (n : Z) (t : ModelTrainer M)
  : ModelTrainer M :=
  mkModelTrainer (model t) (display t) (errorTolerance t)
    (parameterTolerance t) (gradientCheck t) (analyticGradients t)
    (functionEvaluations t) (gradientEvaluations t) (functionValue t) n
    (lineMinimiserParameterTolerance t) (maskSet t) (optimisationMask t)
    (epsilon t).

(** The states of a line search between [0] and [4] with its best point at
    [2]. *)
Definition midway : linesearch := mkLinesearch 0 4 1 1 2 0 0 5 6 6.

Lemma setParameters_exact_precondition_witness :
  let t := masked_pair in
  let p := [9] in
  let mask := optimisationMask t in
  let full := @getParametersVector vec sumModel (model t) in
  let fits := (count_true mask <= length p)%nat
              /\ forall k, mask !! k = Some true -> (k < length full)%nat in
  (fits ->
   @setParameters vec sumModel p t
   = Ret (tt, with_model
                (@setParametersVector vec sumModel
                   (overwrite_active mask full p) (model t))
                t)
   /\ length (overwrite_active mask full p) = length full
   /\ forall k, (length mask <= k)%nat ->
                overwrite_active mask full p !! k = full !! k)
  /\ (~ fits -> @setParameters vec sumModel p t = Fault).
Proof.
  apply (@setParameters_exact_precondition vec sumModel masked_pair [9]).
  reflexivity.
Defined.

Lemma set_then_get_returns_the_vector_witness :
  exists t',
    @setParameters vec sumModel [9] masked_pair = Ret (tt, t')
    /\ @getParameters vec sumModel t' = Ret ([9], t').
Proof.
  apply (@set_then_get_returns_the_vector vec sumModel (vecModel_stored _ _)
           masked_pair [9]).
  - intros _. reflexivity.
  - intros _. reflexivity.
Defined.

Lemma setParameters_last_write_wins_witness :
  exists t1 t2,
    @setParameters vec sumModel [9] masked_pair = Ret (tt, t1)
    /\ @setParameters vec sumModel [3] t1 = Ret (tt, t2)
    /\ @setParameters vec sumModel [3] masked_pair = Ret (tt, t2).
Proof.
  apply (@setParameters_last_write_wins vec sumModel (vecModel_stored _ _)
           masked_pair [9] [3]).
  - intros _. reflexivity.
  - intros _. simpl. lia.
  - intros _. simpl. lia.
Defined.

Lemma errorFunction_forgets_earlier_points_witness :
  exists fp fq t1 t2 t3,
    @errorFunction vec sumModel [9] masked_pair = Ret (fp, t1)
    /\ @errorFunction vec sumModel [3] t1 = Ret (fq, t2)
    /\ @errorFunction vec sumModel [3] masked_pair = Ret (fq, t3)
    /\ model t2 = model t3
    /\ functionEvaluations t2 = (functionEvaluations t3 + 1)%Z.
Proof.
  apply (@errorFunction_forgets_earlier_points vec sumModel
           (vecModel_stored _ _) masked_pair [9] [3]).
  - intros _. reflexivity.
  - intros _. simpl. lia.
  - intros _. simpl. lia.
Defined.

Lemma lineFunction_exact_precondition_witness :
  let t := masked_pair in
  let fits := @mask_fits vec sumModel t /\ covers t [5]
              /\ length [5] = length [1] in
  (fits ->
   @lineFunction vec sumModel [5] 2 [1] t
   = Ret (@lineValue vec sumModel t [5] [1] 2, bump 1 t))
  /\ (~ fits -> @lineFunction vec sumModel [5] 2 [1] t = Fault).
Proof.
  apply (@lineFunction_exact_precondition vec sumModel (vecModel_stored _ _)
           masked_pair [5] 2 [1]).
Defined.

Lemma numericalGradients_are_central_differences_witness :
  let t := masked_pair in
  let params := [5] in
  exists g t',
    @numericalGradients vec sumModel params t = Ret (g, t')
    /\ length g = length params
    /\ (forall i x, params !! i = Some x ->
          g !! i
          = Some ((1 # 2)
                  * ((@objective_at vec sumModel t
                        (<[i := x + epsilon t]> params)
                      - @objective_at vec sumModel t
                          (<[i := x - epsilon t]> params))
                     / epsilon t))%Q)
    /\ functionEvaluations t'
       = (functionEvaluations t + 2 * Z.of_nat (length params))%Z
    /\ gradientEvaluations t' = gradientEvaluations t
    /\ (forall x, last params = Some x ->
          @getParametersVector vec sumModel (model t')
          = @installed vec sumModel t
              (<[pred (length params) := (x - epsilon t)%Q]> params)).
Proof.
  apply (@numericalGradients_are_central_differences vec sumModel
           (vecModel_stored _ _) masked_pair [5]).
  - intros _. reflexivity.
  - intros _. simpl. lia.
Defined.

Lemma errorGradients_sizes_witness :
  let t := masked_pair in
  exists g t',
    @errorGradients vec sumModel [9] t = Ret (g, t')
    /\ (analyticGradients t = true ->
        g = @gradient vec sumModel
              (@setParametersVector vec sumModel
                 (@installed vec sumModel t [9]) (model t))
        /\ ((forall m : vec,
                length (@gradient vec sumModel m)
                = length (@getParametersVector vec sumModel m)) ->
            maskSet t = true ->
            length g = length (optimisationMask t)))
    /\ (analyticGradients t = false -> length g = length [9]).
Proof.
  apply (@errorGradients_sizes vec sumModel (vecModel_stored _ _)
           masked_pair [9]).
  - intros _. reflexivity.
  - intros _. simpl. lia.
Defined.

Lemma checkGradient_table_shape_witness :
  let t := masked_pair in
  exists rows t',
    @checkGradient vec sumModel t = Ret (rows, t')
    /\ length rows = length (@gradient vec sumModel (model t))
    /\ forall k r, rows !! k = Some r ->
         row_index r = k
         /\ row_difference r = Num.abs (row_delta r - row_analytic r)
         /\ (active t k ->
             @gradient vec sumModel (model t) !! k = Some (row_analytic r))
         /\ (~ active t k -> row_delta r = 0 /\ row_analytic r = 0).
Proof.
  intros t.
  destruct (@checkGradient vec sumModel t) as [[rows t']| |] eqn:E;
    [|vm_compute in E; discriminate E..].
  exists rows, t'. split; [reflexivity|].
  exact (@checkGradient_table_shape vec sumModel t rows t' E).
Defined.

Lemma checkGradient_counts_witness :
  let t := masked_pair in
  exists rows t',
    @checkGradient vec sumModel t = Ret (rows, t')
    /\ functionEvaluations t'
       = (functionEvaluations t
          + 2 * Z.of_nat
                  (evaluated_indices t 0
                     (length (@gradient vec sumModel (model t)))))%Z
    /\ gradientEvaluations t' = gradientEvaluations t.
Proof.
  intros t.
  destruct (@checkGradient vec sumModel t) as [[rows t']| |] eqn:E;
    [|vm_compute in E; discriminate E..].
  exists rows, t'. split; [reflexivity|].
  exact (@checkGradient_counts vec sumModel t rows t' E).
Defined.

Lemma checkGradient_values_and_final_model_witness :
  let t := masked_pair in
  exists rows t',
    @checkGradient vec sumModel t = Ret (rows, t')
    /\ (forall k r, rows !! k = Some r -> active t k ->
          row_delta r
          = @central vec sumModel t (@observed vec sumModel t) (probe t k))
    /\ (forall x, last (@observed vec sumModel t) = Some x ->
          @getParametersVector vec sumModel (model t')
          = @installed vec sumModel t
              (<[pred (length (@observed vec sumModel t))
                 := (x - epsilon t)%Q]>
                 (@observed vec sumModel t)))
    /\ (@observed vec sumModel t = [] -> t' = t).
Proof.
  apply (@checkGradient_values_and_final_model vec sumModel
           (vecModel_stored _ _) masked_pair).
  - intros _. reflexivity.
  - reflexivity.
Defined.

Lemma update_keeps_bracket_and_best_witness :
  let s := midway in
  let s' := update s 1 1 3 4 in
  ls_br_min s <= ls_br_min s' /\ ls_br_max s' <= ls_br_max s
  /\ ls_br_min s' <= ls_x s' /\ ls_x s' <= ls_br_max s'
  /\ (4 <= ls_fx s -> ls_x s' = 3 /\ ls_fx s' = 4)
  /\ (ls_fx s < 4 -> ls_x s' = ls_x s /\ ls_fx s' = ls_fx s)
  /\ (ls_fx s <= ls_fw s -> ls_fx s <= ls_fv s ->
      ls_fx s' <= ls_fw s' /\ ls_fx s' <= ls_fv s')
  /\ ls_e s' = 1 /\ ls_d s' = 1.
Proof.
  apply (@update_keeps_bracket_and_best midway 1 1 3 4);
    vm_compute; discriminate.
Defined.

Lemma trial_step_stays_inside_witness :
  let s := midway in
  let d := snd (@trial_step netlab s 2 (1 # 100)) in
  (ls_br_min s <= ls_x s + d /\ ls_x s + d <= ls_br_max s)
  \/ d = Num.sign (2 - ls_x s) * (1 # 100).
Proof.
  apply (@trial_step_stays_inside netlab midway 2 (1 # 100));
    vm_compute; discriminate.
Defined.

Lemma bracketMinimum_counts_and_orders_witness :
  let t := newModelTrainer [0] in
  exists br t',
    @bracketMinimum vec (lineModel parabola) netlab 5 0 1 4 [0] [1] t
    = Ret (br, t')
    /\ (exists k, (2 <= k)%Z /\ t' = bump k t)
    /\ (1 < @PHI netlab -> 0 < 1 ->
        let '(br_min, br_mid, br_max) := br in
        br_min < br_mid /\ br_min < br_max).
Proof.
  intros t.
  destruct (@bracketMinimum vec (lineModel parabola) netlab 5 0 1 4 [0] [1] t)
    as [[br t']| |] eqn:E; [|vm_compute in E; discriminate E..].
  exists br, t'. split; [reflexivity|].
  apply (@bracketMinimum_counts_and_orders vec (lineModel parabola)
           (vecModel_stored _ _) netlab t [0] [1] 5 0 1 4 br t').
  - intros H. discriminate H.
  - intros H. discriminate H.
  - reflexivity.
  - exact E.
Defined.

Lemma bracketMinimum_valid_unless_moved_along_witness :
  let t := newModelTrainer [0] in
  let f := @lineValue vec (lineModel parabola) t [0] [1] in
  exists br t',
    @bracketMinimum vec (lineModel parabola) netlab 5 0 1 (f 0) [0] [1] t
    = Ret (br, t')
    /\ (f 0 < f 1 -> valid_bracket f br)
    /\ (f 1 <= f 0 -> unimodal_at f 2 ->
        valid_bracket f br
        \/ exists s',
            @visits vec (lineModel parabola) netlab t [0] [1]
              (mkExpansion 0 1 (1 + @PHI netlab * (1 - 0)) (f 0) (f 1)
                 (f (1 + @PHI netlab * (1 - 0))) 0 false) s'
            /\ @moves_along vec (lineModel parabola) netlab t [0] [1] s').
Proof.
  intros t f.
  destruct (@bracketMinimum vec (lineModel parabola) netlab 5 0 1 (f 0)
              [0] [1] t)
    as [[br t']| |] eqn:E; [|vm_compute in E; discriminate E..].
  exists br, t'. split; [reflexivity|].
  apply (@bracketMinimum_valid_unless_moved_along vec (lineModel parabola)
           (vecModel_stored _ _) netlab t [0] [1] 5 0 1 2 br t').
  - intros H. discriminate H.
  - intros H. discriminate H.
  - reflexivity.
  - reflexivity.
  - reflexivity.
  - exact E.
Defined.

Lemma lineMinimiser_returns_best_point_witness :
  let t := newModelTrainer [0] in
  match @bracketMinimum vec (lineModel parabola) netlab 5 0 1 4 [0] [1] t
  with
  | Ret ((br_min, br_mid, br_max), t0) =>
      exists fx x t',
        @lineMinimiser vec (lineModel parabola) netlab 5 4 [0] [1] t
        = Ret ((fx, x), t')
        /\ fx = @lineValue vec (lineModel parabola) t [0] [1] x
        /\ fx <= @lineValue vec (lineModel parabola) t [0] [1] br_mid
        /\ model t' = model t
        /\ ((lineMinimiserIterations t <= 0)%Z -> x = br_mid)
  | Fault =>
      @lineMinimiser vec (lineModel parabola) netlab 5 4 [0] [1] t = Fault
  | NoFuel =>
      @lineMinimiser vec (lineModel parabola) netlab 5 4 [0] [1] t = NoFuel
  end.
Proof.
  apply (@lineMinimiser_returns_best_point vec (lineModel parabola)
           (vecModel_stored _ _) netlab (newModelTrainer [0]) [0] [1] 5 4).
  - intros H. discriminate H.
  - intros H. discriminate H.
  - reflexivity.
Defined.

Lemma lineMinimiser_records_value_only_on_convergence_witness :
  let t := with_lineMinimiserIterations 2 (newModelTrainer [0]) in
  exists br_min br_mid br_max t0 fx x t',
    @bracketMinimum vec (lineModel parabola) netlab 5 0 1 4 [0] [1] t
    = Ret ((br_min, br_mid, br_max), t0)
    /\ @lineMinimiser vec (lineModel parabola) netlab 5 4 [0] [1] t
       = Ret ((fx, x), t')
    /\ exists k, (2 <= k)%Z /\ t0 = bump k t
         /\ (t' = bump (k + 1 + Z.max 0 (lineMinimiserIterations t)) t
             \/ exists j, (0 <= j < lineMinimiserIterations t)%Z
                  /\ t' = with_functionValue fx (bump (k + 1 + j) t)).
Proof.
  intros t.
  destruct (@bracketMinimum vec (lineModel parabola) netlab 5 0 1 4 [0] [1] t)
    as [[[[br_min br_mid] br_max] t0]| |] eqn:E;
    [|vm_compute in E; discriminate E..].
  destruct (@lineMinimiser vec (lineModel parabola) netlab 5 4 [0] [1] t)
    as [[[fx x] t']| |] eqn:E2; [|vm_compute in E2; discriminate E2..].
  exists br_min, br_mid, br_max, t0, fx, x, t'.
  split; [reflexivity|]. split; [reflexivity|].
  apply (@lineMinimiser_records_value_only_on_convergence vec
           (lineModel parabola) (vecModel_stored _ _) netlab t [0] [1]
           5 4 br_min br_mid br_max t0 fx x t').
  - intros H. discriminate H.
  - intros H. discriminate H.
  - reflexivity.
  - exact E.
  - exact E2.
Defined.
